(** * goit-algo-hw-05: the log analyser (Task_three.py) and the contact
    assistant (Task_four.py), embedded in Rocq.

    Python values are modelled as follows.
    - [str] is a list of Unicode code points ([N]); string literals of the
      source are written [u "..."] and decoded from UTF-8.
    - [int] is [Z]; [len] and format widths are [nat].
    - exceptions are a class and an argument; a computation that may raise
      has type [result A], one that also prints has type [io A].
    - the counting dictionary of [count_logs_by_level] is never iterated and
      is a [gmap]; the contact book is iterated by [show_all], so it keeps
      Python's insertion order as an association list.
    - the file system is the function [fs] from a path to what [open] and
      the iteration over the file do there; standard input is the list of
      the lines still to come; [print] never fails.
    - [str.upper], [str.lower] and [repr] depend on the Unicode character
      database; they are the fields of the class [Unicode], known on ASCII
      text, and every statement holds for every instance of it. *)

From Stdlib Require Import ZArith NArith Lia Ascii String.
From stdpp Require Import base option list gmap pretty.

Local Open Scope N_scope.
Local Open Scope list_scope.

(** ** Python's built-in strings *)

Module Py.

Definition str : Type := list N.

(** Source literals: the bytes of a Rocq string, decoded as UTF-8. *)
Fixpoint bytes (s : string) : list N :=
  match s with
  | EmptyString => []
  | String a r => N_of_ascii a :: bytes r
  end.

Definition cont (acc b : N) : N := N.lor (N.shiftl acc 6) (N.land b 0x3F).

Fixpoint utf8_decode (bs : list N) : str :=
  match bs with
  | [] => []
  | b :: r =>
      if b <? 0x80 then b :: utf8_decode r
      else if b <? 0xE0 then
        match r with
        | b1 :: r1 => cont (N.land b 0x1F) b1 :: utf8_decode r1
        | _ => []
        end
      else if b <? 0xF0 then
        match r with
        | b1 :: b2 :: r2 => cont (cont (N.land b 0x0F) b1) b2 :: utf8_decode r2
        | _ => []
        end
      else
        match r with
        | b1 :: b2 :: b3 :: r3 =>
            cont (cont (cont (N.land b 0x07) b1) b2) b3 :: utf8_decode r3
        | _ => []
        end
  end.

Definition u (s : string) : str := utf8_decode (bytes s).
Global Arguments u s%_string.

(** [str.isspace] on one code point, the table of CPython's
    [_PyUnicode_IsWhitespace]; [strip] and [split] use the same table. *)
Definition isspace (c : N) : bool :=
  ((0x09 <=? c) && (c <=? 0x0D))
  || ((0x1C <=? c) && (c <=? 0x20))
  || (c =? 0x85) || (c =? 0xA0) || (c =? 0x1680)
  || ((0x2000 <=? c) && (c <=? 0x200A))
  || (c =? 0x2028) || (c =? 0x2029) || (c =? 0x202F)
  || (c =? 0x205F) || (c =? 0x3000).

(** Runs of whitespace, whitespace-free runs, and text that neither starts
    nor ends with whitespace. *)
Definition allspace (s : str) : Prop := Forall (λ c, isspace c = true) s.
Definition nospace (s : str) : Prop := Forall (λ c, isspace c = false) s.
Definition trimmed (s : str) : Prop :=
  (∃ c, head s = Some c ∧ isspace c = false)
  ∧ (∃ c, last s = Some c ∧ isspace c = false).

Global Instance allspace_dec s : Decision (allspace s).
Proof. unfold allspace. apply _. Defined.
Global Instance nospace_dec s : Decision (nospace s).
Proof. unfold nospace. apply _. Defined.

(** [s.lstrip()], [s.rstrip()], [s.strip()] *)
Fixpoint lstrip (s : str) : str :=
  match s with
  | [] => []
  | c :: r => if isspace c then lstrip r else s
  end.

Definition rstrip (s : str) : str := reverse (lstrip (reverse s)).

Definition strip (s : str) : str := rstrip (lstrip s).

(** The longest whitespace-free prefix of [s], and what follows it. *)
Fixpoint token (s : str) : str * str :=
  match s with
  | [] => ([], [])
  | c :: r =>
      if isspace c then ([], s)
      else let '(t, rest) := token r in (c :: t, rest)
  end.

(** [split_whitespace] of CPython: at most [maxcount] splits; once they are
    used up the rest of the string, without its leading whitespace, is the
    last item. *)
Fixpoint split_whitespace (maxcount : nat) (s : str) : list str :=
  match maxcount with
  | O => match lstrip s with
         | [] => []
         | r => [r]
         end
  | S m => match lstrip s with
           | [] => []
           | r => let '(t, rest) := token r in t :: split_whitespace m rest
           end
  end.

(** [s.split(maxsplit=n)] and [s.split()]. Without [maxsplit] CPython
    allows [PY_SSIZE_T_MAX] splits; [length s] splits can never be used up
    (lemma [split_whitespace_saturates]). *)
Definition split_max (n : nat) (s : str) : list str := split_whitespace n s.
Definition split (s : str) : list str := split_whitespace (length s) s.

(** [sep.join(items)] *)
Fixpoint join (sep : str) (items : list str) : str :=
  match items with
  | [] => []
  | [x] => x
  | x :: r => x ++ sep ++ join sep r
  end.

(** [str(n)] for an [int], [s * n], and the format specs [{s:<w}] and
    [{s:>w}] (padding with spaces up to [w] code points). *)
Definition str_of_int (n : Z) : str := bytes (pretty n).
Definition ljust (w : nat) (s : str) : str := s ++ replicate (w - length s) 0x20.
Definition rjust (w : nat) (s : str) : str := replicate (w - length s) 0x20 ++ s.

(** The methods of [str] that consult the Unicode character database,
    which is not part of the repository: they are a parameter, known on
    ASCII text. [repr_plain] is the case of printable ASCII without a
    quote or a backslash. *)
Definition is_ascii (c : N) : bool := c <? 0x80.
Definition ascii_upper (c : N) : N :=
  if (0x61 <=? c) && (c <=? 0x7A) then c - 0x20 else c.
Definition ascii_lower (c : N) : N :=
  if (0x41 <=? c) && (c <=? 0x5A) then c + 0x20 else c.
Definition is_plain (c : N) : bool :=
  (0x20 <=? c) && (c <? 0x7F) && negb (c =? 0x27) && negb (c =? 0x5C).

Class Unicode := {
    upper : str → str;
    lower : str → str;
    repr : str → str;
    upper_ascii : ∀ s, forallb is_ascii s = true → upper s = ascii_upper <$> s;
    lower_ascii : ∀ s, forallb is_ascii s = true → lower s = ascii_lower <$> s;
    repr_plain : ∀ s, forallb is_plain s = true → repr s = u "'" ++ s ++ u "'";
  }.

(** The instance that maps the case of ASCII letters only and quotes
    without escapes. Every statement below holds for every instance; this
    one is there to run examples. *)
Definition ascii_unicode : Unicode := {|
    upper := fmap ascii_upper;
    lower := fmap ascii_lower;
    repr := λ s, u "'" ++ s ++ u "'";
    upper_ascii := λ _ _, eq_refl;
    lower_ascii := λ _ _, eq_refl;
    repr_plain := λ _ _, eq_refl;
  |}.

(** ** Exceptions *)

Inductive exc_class :=
  | ValueError | UnicodeDecodeError
  | KeyError | IndexError
  | OSError | FileNotFoundError | PermissionError
  | EOFError.

Global Instance exc_class_eq_dec : EqDecision exc_class.
Proof. solve_decision. Defined.

(** The direct base class, among the classes above. *)
Definition base_class (c : exc_class) : option exc_class :=
  match c with
  | UnicodeDecodeError => Some ValueError
  | FileNotFoundError | PermissionError => Some OSError
  | _ => None
  end.

Definition issubclass (c d : exc_class) : bool :=
  bool_decide (c = d) || bool_decide (base_class c = Some d).

(** An exception: its class and its argument, which is the text that
    [str(exc)] shows, except for a [KeyError], whose argument is the key. *)
Record exn := Exc { exc_type : exc_class; exc_arg : str }.

Global Instance exn_eq_dec : EqDecision exn.
Proof. solve_decision. Defined.

Section Str.
Context `{Unicode}.

(** [str(exc)]: the argument, except that [KeyError] shows its [repr]. *)
Definition str_exc (e : exn) : str :=
  match exc_type e with
  | KeyError => repr (exc_arg e)
  | _ => exc_arg e
  end.
End Str.

(** [isinstance(e, classes)] for the tuple of an [except] clause. *)
Definition isinstance (e : exn) (classes : list exc_class) : bool :=
  existsb (issubclass (exc_type e)) classes.

(** ** Computations *)

Inductive result (A : Type) : Type :=
  | Return (a : A)
  | Raise (e : exn).
Global Arguments Return {A} a.
Global Arguments Raise {A} e.

Global Instance result_ret : MRet result := λ A a, Return a.
Global Instance result_bind : MBind result := λ A B f m,
  match m with
  | Return a => f a
  | Raise e => Raise e
  end.

(** What a run writes, in order. [Prompt] is the text that [input] shows. *)
Inductive event :=
  | Stdout (s : str)
  | Stderr (s : str)
  | Prompt (s : str).

Definition io (A : Type) : Type := list event * result A.

Global Instance io_ret : MRet io := λ A a, ([], Return a).
Global Instance io_bind : MBind io := λ A B f m,
  match m with
  | (out, Return a) => let '(out', r) := f a in (out ++ out', r)
  | (out, Raise e) => (out, Raise e)
  end.

Definition lift {A} (r : result A) : io A := ([], r).
Definition raise {A} (c : exc_class) (arg : str) : io A := ([], Raise (Exc c arg)).
Definition print (s : str) : io () := ([Stdout s], Return ()).
Definition print_err (s : str) : io () := ([Stderr s], Return ()).

(** [try: body except C1 as exc: h1 exc except C2 as exc: h2 exc ...]: the
    first clause whose classes match handles the exception; what a handler
    raises is not caught by the clauses of the same statement. *)
Definition clause (A : Type) : Type := list exc_class * (exn → io A).

Fixpoint dispatch {A} (e : exn) (clauses : list (clause A)) : io A :=
  match clauses with
  | [] => ([], Raise e)
  | (classes, handler) :: rest =>
      if isinstance e classes then handler e else dispatch e rest
  end.

Definition try_except {A} (body : io A) (clauses : list (clause A)) : io A :=
  match body with
  | (out, Raise e) => let '(out', r) := dispatch e clauses in (out ++ out', r)
  | finished => finished
  end.

(** [for x in xs: body x] *)
Fixpoint for_each {A} (xs : list A) (body : A → io ()) : io () :=
  match xs with
  | [] => mret ()
  | x :: rest => body x;; for_each rest body
  end.

End Py.

(** ** What a run wrote, by channel *)

Module Trace.
Import Py.

Definition stdout_of (out : list event) : list str :=
  omap (λ e, match e with Stdout s => Some s | _ => None end) out.

Definition stderr_of (out : list event) : list str :=
  omap (λ e, match e with Stderr s => Some s | _ => None end) out.

Definition prompts_of (out : list event) : list str :=
  omap (λ e, match e with Prompt s => Some s | _ => None end) out.

End Trace.

(** ** Task_three.py: the log analyser *)

Module Task_three.
Import Py.

Definition LOG_LEVELS : list str := [u "INFO"; u "ERROR"; u "DEBUG"; u "WARNING"].

Record LogRecord := {
    date : str;
    time : str;
    level : str;
    message : str;
  }.

Global Instance LogRecord_eq_dec : EqDecision LogRecord.
Proof. solve_decision. Defined.

(** What the file system does at a path: [open] raises, or the file yields
    [lines] (each with its line end, if any) and then the iteration stops,
    at the end of the file or with an exception. *)
Inductive file :=
  | OpenRaises (e : exn)
  | Opened (lines : list str) (stop : option exn).

Definition filesystem : Type := str → file.

Section Program.
Context `{Unicode}.

Definition parse_log_line (line : str) : result LogRecord :=
  let parts := split_max 3 (strip line) in
  if bool_decide (length parts < 4)%nat then
    Raise (Exc ValueError (u "Invalid log line format: " ++ repr line))
  else
    match parts with
    | [date; time; level; message] =>
        if bool_decide (level ∉ LOG_LEVELS) then
          Raise (Exc ValueError
                   (u "Unknown log level " ++ repr level
                      ++ u " in line: " ++ repr line))
        else
          Return {| date := date; time := time;
                    level := level; message := message |}
    | _ => Raise (Exc ValueError (u "too many values to unpack (expected 4)"))
    end.

(** The body of [for line_no, line in enumerate(file, start=1)]. *)
Fixpoint for_lines (line_no : Z) (lines : list str) (logs : list LogRecord)
    : io (list LogRecord) :=
  match lines with
  | [] => mret logs
  | line :: rest =>
      if bool_decide (strip line = []) then
        for_lines (line_no + 1) rest logs
      else
        logs' ← try_except
                  (rec ← lift (parse_log_line line); mret (logs ++ [rec]))
                  [([ValueError],
                    λ exc,
                      print_err (u "Warning: line " ++ str_of_int line_no
                                   ++ u ": " ++ str_exc exc);;
                      mret logs)];
        for_lines (line_no + 1) rest logs'
  end.

Definition load_logs (fs : filesystem) (file_path : str)
    : io (list LogRecord) :=
  try_except
    (match fs file_path with
     | OpenRaises e => ([], Raise e)
     | Opened lines stop =>
         logs ← for_lines 1 lines [];
         match stop with
         | None => mret logs
         | Some e => ([], Raise e)
         end
     end)
    [([FileNotFoundError],
      λ exc, raise FileNotFoundError (u "File not found: " ++ file_path));
     ([OSError],
      λ exc, raise OSError (u "Error reading file " ++ repr file_path
                              ++ u ": " ++ str_exc exc))].

Definition filter_logs_by_level (logs : list LogRecord) (level : str)
    : result (list LogRecord) :=
  let level_upper := upper level in
  if bool_decide (level_upper ∉ LOG_LEVELS) then
    Raise (Exc ValueError
             (u "Unsupported level " ++ repr level
                ++ u ". Use one of: " ++ join (u ", ") LOG_LEVELS))
  else
    Return (filter (λ rec, rec.(Task_three.level) = level_upper) logs).

(** [counts[rec["level"]] += 1] for each record: reading a key that is
    not in the dictionary raises [KeyError(key)]. *)
Fixpoint tally (logs : list LogRecord) (counts : gmap str Z)
    : result (gmap str Z) :=
  match logs with
  | [] => Return counts
  | rec :: rest =>
      match counts !! level rec with
      | None => Raise (Exc KeyError (level rec))
      | Some n => tally rest (<[level rec := (n + 1)%Z]> counts)
      end
  end.

Definition count_logs_by_level (logs : list LogRecord)
    : result (gmap str Z) :=
  let counts : gmap str Z := foldl (λ d lvl, <[lvl := 0%Z]> d) ∅ LOG_LEVELS in
  tally logs counts.

(** [counts.get(level, 0)] *)
Definition get0 (counts : gmap str Z) (level : str) : Z :=
  default 0%Z (counts !! level).

Definition display_log_counts (counts : gmap str Z) : io () :=
  let header_left := u "Рівень логування" in
  let header_right := u "Кількість" in
  let left_width :=
    (length header_left `max` max_list (length <$> LOG_LEVELS))%nat in
  let right_width :=
    (length header_right
       `max` max_list ((λ level, length (str_of_int (get0 counts level)))
                         <$> LOG_LEVELS))%nat in
  print (ljust left_width header_left ++ u " | "
           ++ rjust right_width header_right);;
  print (replicate left_width 0x2D ++ u "-+-" ++ replicate right_width 0x2D);;
  for_each LOG_LEVELS (λ level,
    print (ljust left_width level ++ u " | "
             ++ rjust right_width (str_of_int (get0 counts level)))).

Definition display_log_details (logs : list LogRecord) (level : str) : io () :=
  let level_upper := upper level in
  print ([0x0A] ++ u "Деталі логів для рівня '" ++ level_upper ++ u "':");;
  if bool_decide (logs = []) then
    print (u "Немає записів для цього рівня.")
  else
    for_each logs (λ rec,
      print (date rec ++ u " " ++ time rec ++ u " - " ++ message rec)).

(** [main(argv)]. The [try] statement yields [Some code] when a handler
    returns from the function, [None] when the body runs to its end. *)
Definition main (fs : filesystem) (argv : list str) : io Z :=
  if bool_decide (length argv < 2)%nat then
    print_err (u "Usage: python main.py <logfile_path> [level]");;
    mret 1%Z
  else
    match argv !! 1%nat with
    | None => raise IndexError (u "list index out of range")
    | Some file_path =>
        let level : option str :=
          if bool_decide (3 ≤ length argv)%nat then argv !! 2%nat else None in
        returned ← try_except
          (logs ← load_logs fs file_path;
           counts ← lift (count_logs_by_level logs);
           display_log_counts counts;;
           match level with
           | Some level =>
               filtered ← lift (filter_logs_by_level logs level);
               display_log_details filtered level
           | None => mret ()
           end;;
           mret (@None Z))
          [([FileNotFoundError; OSError; ValueError],
            λ exc, print_err (u "Error: " ++ str_exc exc);; mret (Some 1%Z))];
        match returned with
        | Some code => mret code
        | None => mret 0%Z
        end
    end.
End Program.

(** *** The vocabulary of the specification *)

(** A field of a log line: a non-empty whitespace-free run; and what
    delimits the fields: a non-empty run of whitespace. *)
Definition field (t : str) : Prop := t ≠ [] ∧ nospace t.
Definition gap (ws : str) : Prop := ws ≠ [] ∧ allspace ws.

Global Instance field_dec t : Decision (field t).
Proof. unfold field. apply _. Defined.
Global Instance gap_dec ws : Decision (gap ws).
Proof. unfold gap. apply _. Defined.

(** How many records of [logs] have the level [l]. *)
Definition occurrences (l : str) (logs : list LogRecord) : Z :=
  Z.of_nat (length (filter (λ rec, level rec = l) logs)).

Section Specification.
Context `{Unicode}.

(** The two errors of the line parser. *)
Definition format_error (line : str) : exn :=
  Exc ValueError (u "Invalid log line format: " ++ repr line).
Definition unknown_level_error (level line : str) : exn :=
  Exc ValueError (u "Unknown log level " ++ repr level
                    ++ u " in line: " ++ repr line).

(** The error of the filter. *)
Definition unsupported_level_error (level : str) : exn :=
  Exc ValueError (u "Unsupported level " ++ repr level
                    ++ u ". Use one of: INFO, ERROR, DEBUG, WARNING").

(** The loader, as the specification words it: the records of the
    non-blank lines that parse, in file order, and one warning with the
    line number for each non-blank line that does not parse. *)
Definition blank (line : str) : Prop := strip line = [].

Definition parsed (line : str) : option LogRecord :=
  match parse_log_line line with
  | Return rec => Some rec
  | Raise _ => None
  end.

Definition records_of (lines : list str) : list LogRecord :=
  omap parsed (filter (λ line, ¬ blank line) lines).

Definition warning (line_no : Z) (exc : exn) : event :=
  Stderr (u "Warning: line " ++ str_of_int line_no ++ u ": " ++ str_exc exc).

Definition rejected (numbered : nat * str) : option event :=
  if decide (blank numbered.2) then None
  else match parse_log_line numbered.2 with
       | Return _ => None
       | Raise exc => Some (warning (Z.of_nat numbered.1 + 1) exc)
       end.

Definition warnings_of (lines : list str) : list event :=
  omap rejected (imap pair lines).

Definition valid (line : str) : Prop := ¬ blank line ∧ is_Some (parsed line).
Definition malformed (line : str) : Prop := ¬ blank line ∧ parsed line = None.

Global Instance valid_dec line : Decision (valid line).
Proof. unfold valid, blank. apply _. Defined.
Global Instance malformed_dec line : Decision (malformed line).
Proof. unfold malformed, blank. apply _. Defined.

(** The file at [file_path] can be read to its end. *)
Definition readable (fs : filesystem) (file_path : str) (lines : list str) : Prop :=
  fs file_path = Opened lines None.

(** The level argument that the filter accepts. *)
Definition supported (lvl : str) : Prop := upper lvl ∈ LOG_LEVELS.

(** The usage message. *)
Definition usage : event :=
  Stderr (u "Usage: python main.py <logfile_path> [level]").

(** Opening the file, or reading it after some lines, fails with [exc]. *)
Definition fails_with (fs : filesystem) (file_path : str) (exc : exn) : Prop :=
  fs file_path = OpenRaises exc ∨ ∃ lines, fs file_path = Opened lines (Some exc).
End Specification.

(** *** A sample file system

    One log file with three valid lines, one malformed line and one blank
    line; one file that only its owner may read; one file that is not
    UTF-8; no other file. *)
Definition sample_lines : list str :=
  [u "2024-01-01 10:00:00 INFO Started" ++ [0x0A];
   u "garbage line" ++ [0x0A];
   [0x0A];
   u "2024-01-01 10:05:00 ERROR Failed to connect" ++ [0x0A];
   u "2024-01-01 10:06:00 WARNING Retrying   soon"].

Definition sample_fs : filesystem := λ file_path,
  if decide (file_path = u "app.log") then Opened sample_lines None
  else if decide (file_path = u "secret.log") then
    OpenRaises (Exc PermissionError
                  (u "[Errno 13] Permission denied: 'secret.log'"))
  else if decide (file_path = u "binary.log") then
    Opened [] (Some (Exc UnicodeDecodeError
                       (u "'utf-8' codec can't decode byte 0xff in position 0: invalid start byte")))
  else
    OpenRaises (Exc FileNotFoundError
                  (u "[Errno 2] No such file or directory: " ++ u "'"
                     ++ file_path ++ u "'")).

(** *** More vocabulary

    The line of a record in the expected format, with one space between
    the fields. *)
Definition log_line (rec : LogRecord) : str :=
  date rec ++ u " " ++ time rec ++ u " " ++ level rec ++ u " " ++ message rec.

Global Instance blank_dec line : Decision (blank line).
Proof. unfold blank. apply _. Defined.

(** The records that [parse_log_line] can return. *)
Definition well_formed (rec : LogRecord) : Prop :=
  field (date rec) ∧ field (time rec) ∧ level rec ∈ LOG_LEVELS
  ∧ trimmed (message rec).

(** The first line of the sample log file, and its record. *)
Definition sample_line : str := u "2024-01-01 10:00:00 INFO Started" ++ [0x0A].

Definition sample_record : LogRecord :=
  {| date := u "2024-01-01"; time := u "10:00:00";
     level := u "INFO"; message := u "Started" |}.

End Task_three.

(** ** Task_four.py: the contact assistant *)

Module Task_four.
Import Py.

(** [Dict[str, str]], in insertion order. *)
Definition dict : Type := list (str * str).

(** [key in d] *)
Definition contains (d : dict) (key : str) : bool := bool_decide (key ∈ d.*1).

(** [d[key]]; [None] stands for [KeyError(key)]. *)
Fixpoint getitem (d : dict) (key : str) : option str :=
  match d with
  | [] => None
  | (k, v) :: rest => if decide (k = key) then Some v else getitem rest key
  end.

(** [d[key] = value]: a key that is present keeps its place. *)
Fixpoint setitem (d : dict) (key value : str) : dict :=
  match d with
  | [] => [(key, value)]
  | (k, v) :: rest =>
      if decide (k = key) then (k, value) :: rest
      else (k, v) :: setitem rest key value
  end.

(** A call of a handler: the contact book as the call leaves it, and what
    the call returns or raises. *)
Definition outcome : Type := dict * result str.

Section Program.
Context `{Unicode}.

(** The decorator; [args] is the whole argument tuple of the call. *)
Definition input_error {X} (func : X → outcome) (args : X) : outcome :=
  match func args with
  | (contacts, Raise exc) =>
      if isinstance exc [ValueError; KeyError; IndexError]
      then (contacts, Return (str_exc exc))
      else (contacts, Raise exc)
  | returned => returned
  end.

Definition parse_input (user_input : str) : str * list str :=
  let parts := split (strip user_input) in
  match parts with
  | [] => ([], [])
  | cmd :: args => (lower cmd, args)
  end.

(** The handlers. After the test of [len(args)] the unpacking of [args]
    cannot fail; its error is there for the shape of the code only. *)
Definition add_contact : list str * dict → outcome :=
  input_error (λ '(args, contacts),
    if bool_decide (length args ≠ 2%nat) then
      (contacts, Raise (Exc ValueError (u "Give me name and phone please.")))
    else
      match args with
      | [name; phone] =>
          (setitem contacts name phone, Return (u "Contact added."))
      | _ => (contacts,
              Raise (Exc ValueError (u "not enough values to unpack (expected 2)")))
      end).

Definition change_contact : list str * dict → outcome :=
  input_error (λ '(args, contacts),
    if bool_decide (length args ≠ 2%nat) then
      (contacts, Raise (Exc ValueError (u "Give me name and phone please.")))
    else
      match args with
      | [name; new_phone] =>
          if negb (contains contacts name) then
            (contacts, Raise (Exc KeyError (u "Contact not found.")))
          else
            (setitem contacts name new_phone, Return (u "Contact updated."))
      | _ => (contacts,
              Raise (Exc ValueError (u "not enough values to unpack (expected 2)")))
      end).

Definition show_phone : list str * dict → outcome :=
  input_error (λ '(args, contacts),
    if bool_decide (length args ≠ 1%nat) then
      (contacts, Raise (Exc ValueError (u "Enter user name.")))
    else
      match args !! 0%nat with
      | None => (contacts, Raise (Exc IndexError (u "list index out of range")))
      | Some name =>
          if negb (contains contacts name) then
            (contacts, Raise (Exc KeyError (u "Contact not found.")))
          else
            match getitem contacts name with
            | Some phone => (contacts, Return phone)
            | None => (contacts, Raise (Exc KeyError name))
            end
      end).

Definition show_all : dict → outcome :=
  input_error (λ contacts,
    if bool_decide (contacts = []) then
      (contacts, Return (u "No contacts saved."))
    else
      (contacts,
       Return (join [0x0A] ((λ '(name, phone), name ++ u ": " ++ phone)
                              <$> contacts)))).

(** [input(prompt)] on the lines still to come on standard input. *)
Definition input (prompt : str) (stdin : list str) : io (str * list str) :=
  match stdin with
  | [] => ([Prompt prompt], Raise (Exc EOFError (u "EOF when reading a line")))
  | line :: rest => ([Prompt prompt], Return (line, rest))
  end.

(** [print(handler(...)); continue]: the handler's reply is printed, and
    the loop goes on with the contact book as the handler left it. *)
Definition print_reply (call : outcome) : io (option dict) :=
  reply ← lift call.2; print reply;; mret (Some call.1).

(** One pass through the body of [while True], after the line is read:
    [None] is [break], [Some contacts] goes round again. *)
Definition command (user_input : str) (contacts : dict) : io (option dict) :=
  let '(command, args) := parse_input user_input in
  if bool_decide (command ∈ [u "close"; u "exit"]) then
    print (u "Good bye!");; mret None
  else if bool_decide (command = u "") then
    mret (Some contacts)
  else if bool_decide (command = u "hello") then
    print (u "How can I help you?");; mret (Some contacts)
  else if bool_decide (command = u "add") then
    print_reply (add_contact (args, contacts))
  else if bool_decide (command = u "change") then
    print_reply (change_contact (args, contacts))
  else if bool_decide (command = u "phone") then
    print_reply (show_phone (args, contacts))
  else if bool_decide (command = u "all") then
    print_reply (show_all contacts)
  else
    print (u "Invalid command.");; mret (Some contacts).

(** [while True]: one round per line of standard input. *)
Fixpoint while_true (stdin : list str) (contacts : dict) : io () :=
  match stdin with
  | [] => _ ← input (u "Enter a command: ") stdin; mret ()
  | user_input :: rest =>
      _ ← input (u "Enter a command: ") stdin;
      next ← command user_input contacts;
      match next with
      | None => mret ()
      | Some contacts => while_true rest contacts
      end
  end.

Definition main (stdin : list str) : io () :=
  let contacts : dict := [] in
  print (u "Welcome to the assistant bot!");;
  while_true stdin contacts.
End Program.

(** *** The vocabulary of the specification *)

(** The replies to a wrong number of arguments and to a name that is not
    in the contact book; the second is [str(KeyError("Contact not
    found."))], which shows the [repr] of the argument. *)
Definition usage_reply : str := u "Give me name and phone please.".
Definition not_found_reply : str := u "'Contact not found.'".

(** What follows the command word on the line: nothing, or text that starts
    with whitespace. *)
Definition arguments (tail : str) : Prop :=
  tail = [] ∨ ∃ c r, tail = c :: r ∧ isspace c = true.

Section Specification.
Context `{Unicode}.

(** The line [user_input] is answered with [reply], and the loop goes on
    with the contact book [contacts']. *)
Definition answers (user_input : str) (contacts : dict)
    (reply : str) (contacts' : dict) : Prop :=
  command user_input contacts = ([Stdout reply], Return (Some contacts')).

(** After [add Alice 123], the line [phone alice] is answered with
    [reply]. *)
Definition phone_alice_after_add_Alice (contacts : dict) (reply : str) : Prop :=
  ∃ contacts',
    answers (u "add Alice 123") contacts (u "Contact added.") contacts'
    ∧ answers (u "phone alice") contacts' reply contacts'.
End Specification.

(** *** More vocabulary *)

(** The names of a contact book, in its order. *)
Definition names (contacts : dict) : list str := contacts.*1.

(** The line of [show_all] for one contact. *)
Definition entry (contact : str * str) : str :=
  contact.1 ++ u ": " ++ contact.2.

(** A contact book with one contact. *)
Definition sample_book : dict := [(u "Alice", u "123")].

Section Session.
Context `{Unicode}.

(** The command word of a line. *)
Definition word (user_input : str) : str := (parse_input user_input).1.

(** The lines that end the session. *)
Definition leaves (user_input : str) : Prop :=
  word user_input ∈ [u "close"; u "exit"].

Global Instance leaves_dec user_input : Decision (leaves user_input).
Proof. unfold leaves. apply _. Defined.
End Session.

End Task_four.

(** * Properties *)

(** ** Facts about [strip] and [split] *)

Module Py_facts.
Import Py.

(** Closed decidable statements are settled by evaluation. *)
Ltac by_decision :=
  match goal with
  | |- ?P => refine (bool_decide_unpack P _); vm_compute; exact I
  end.

Lemma lstrip_allspace_app ws s : allspace ws → lstrip (ws ++ s) = lstrip s.
Proof.
  induction 1 as [|c ws Hc _ IH]; [done|].
  simpl. by rewrite Hc.
Qed.

Lemma lstrip_allspace ws : allspace ws → lstrip ws = [].
Proof.
  intros Hws. rewrite <- (app_nil_r ws). by rewrite lstrip_allspace_app.
Qed.

Lemma lstrip_cons c s : isspace c = false → lstrip (c :: s) = c :: s.
Proof. intros Hc. simpl. by rewrite Hc. Qed.

Lemma lstrip_nil_allspace s : lstrip s = [] → allspace s.
Proof.
  induction s as [|c s IH]; [constructor|].
  simpl. destruct (isspace c) eqn:Hc; intros Hs; [|done].
  apply Forall_cons. split; [done|by apply IH].
Qed.

Lemma lstrip_length s : (length (lstrip s) ≤ length s)%nat.
Proof.
  induction s as [|c s IH]; [done|].
  simpl. destruct (isspace c); simpl; lia.
Qed.

Lemma lstrip_head s c r : lstrip s = c :: r → isspace c = false.
Proof.
  induction s as [|d s IH]; [done|].
  simpl. destruct (isspace d) eqn:Hd; [done|].
  by intros [= -> _].
Qed.

Lemma lstrip_idemp s : lstrip (lstrip s) = lstrip s.
Proof.
  destruct (lstrip s) as [|c r] eqn:Hs; [done|].
  apply lstrip_cons. by eapply lstrip_head.
Qed.

Lemma allspace_reverse ws : allspace ws → allspace (reverse ws).
Proof. unfold allspace. by rewrite Forall_reverse. Qed.

Lemma rstrip_app_allspace s ws : allspace ws → rstrip (s ++ ws) = rstrip s.
Proof.
  intros Hws. unfold rstrip.
  by rewrite reverse_app, lstrip_allspace_app by by apply allspace_reverse.
Qed.

Lemma rstrip_snoc s c : isspace c = false → rstrip (s ++ [c]) = s ++ [c].
Proof.
  intros Hc. unfold rstrip.
  rewrite reverse_app. simpl. rewrite Hc.
  change (c :: reverse s) with (reverse [c] ++ reverse s).
  by rewrite <- reverse_app, reverse_involutive.
Qed.

Lemma strip_trimmed ws0 s ws1 :
  allspace ws0 → trimmed s → allspace ws1 → strip (ws0 ++ s ++ ws1) = s.
Proof.
  intros Hws0 [(c & Hc & Hcs) (d & Hd & Hds)] Hws1. unfold strip.
  rewrite lstrip_allspace_app by done.
  destruct s as [|c' s']; [done|]. injection Hc as ->.
  change ((c :: s') ++ ws1) with (c :: (s' ++ ws1)).
  rewrite lstrip_cons by done.
  change (c :: (s' ++ ws1)) with ((c :: s') ++ ws1).
  rewrite rstrip_app_allspace by done.
  apply last_Some in Hd as [s'' ->]. by apply rstrip_snoc.
Qed.

Lemma token_app s : (token s).1 ++ (token s).2 = s.
Proof.
  induction s as [|c s IH]; [done|].
  simpl. destruct (isspace c); [done|].
  destruct (token s) as [t rest]. simpl in *. by rewrite IH.
Qed.

Lemma token_nospace s : nospace (token s).1.
Proof.
  induction s as [|c s IH]; [constructor|].
  simpl. destruct (isspace c) eqn:Hc; [constructor|].
  destruct (token s) as [t rest]. by constructor.
Qed.

Lemma token_cons c s :
  isspace c = false → token (c :: s) = (c :: (token s).1, (token s).2).
Proof. intros Hc. simpl. rewrite Hc. by destruct (token s). Qed.

(** A whitespace-free run is read as one token when whitespace or the end
    of the string follows it. *)
Lemma token_run t s :
  nospace t → (s = [] ∨ ∃ c r, s = c :: r ∧ isspace c = true) →
  token (t ++ s) = (t, s).
Proof.
  intros Ht Hs. induction Ht as [|d t Hd _ IH]; simpl.
  - destruct Hs as [->|(c & r & -> & Hc)]; [done|]. simpl. by rewrite Hc.
  - rewrite Hd, IH. done.
Qed.

Lemma split_whitespace_allspace_app n ws s :
  allspace ws → split_whitespace n (ws ++ s) = split_whitespace n s.
Proof.
  intros Hws. destruct n; simpl; by rewrite lstrip_allspace_app.
Qed.

Lemma split_whitespace_nil n : split_whitespace n [] = [].
Proof. by destruct n. Qed.

Lemma split_whitespace_S n s :
  split_whitespace (S n) s =
    match lstrip s with
    | [] => []
    | r => let '(t, rest) := token r in t :: split_whitespace n rest
    end.
Proof. done. Qed.

Lemma lstrip_field t s : t ≠ [] → nospace t → lstrip (t ++ s) = t ++ s.
Proof.
  intros Hne Ht. destruct Ht as [|d t Hd _]; [done|].
  by apply lstrip_cons.
Qed.

(** One split: a non-empty whitespace-free run, followed by whitespace or
    by the end of the string, is the next item. *)
Lemma split_whitespace_field n t s :
  t ≠ [] → nospace t → (s = [] ∨ ∃ c r, s = c :: r ∧ isspace c = true) →
  split_whitespace (S n) (t ++ s) = t :: split_whitespace n s.
Proof.
  intros Hne Ht Hs.
  rewrite split_whitespace_S, lstrip_field by done.
  destruct t as [|d t]; [done|].
  change ((d :: t) ++ s) with (d :: (t ++ s)). cbv iota.
  change (d :: (t ++ s)) with ((d :: t) ++ s).
  by rewrite token_run.
Qed.

(** The last item, once the splits are used up. *)
Lemma split_whitespace_rest ws c r :
  allspace ws → isspace c = false →
  split_whitespace 0 (ws ++ c :: r) = [c :: r].
Proof.
  intros Hws Hc. simpl. by rewrite lstrip_allspace_app, lstrip_cons.
Qed.

Lemma split_whitespace_length n s : (length (split_whitespace n s) ≤ S n)%nat.
Proof.
  revert s. induction n as [|n IH]; intros s; cbn [split_whitespace].
  - destruct (lstrip s); cbn [length]; lia.
  - destruct (lstrip s) as [|c r]; [cbn [length]; lia|].
    destruct (token (c :: r)) as [t rest].
    cbn [length]. specialize (IH rest). lia.
Qed.

Lemma token_rest_length c r :
  isspace c = false → (length (token (c :: r)).2 < length (c :: r))%nat.
Proof.
  intros Hc. rewrite token_cons by done. cbn [snd length].
  pose proof (token_app r) as Happ.
  apply (f_equal length) in Happ. rewrite length_app in Happ. lia.
Qed.

(** More splits than the string has code points are never used up. *)
Lemma split_whitespace_saturates n m s :
  (length s ≤ n)%nat → (length s ≤ m)%nat →
  split_whitespace n s = split_whitespace m s.
Proof.
  revert m s. induction n as [|n IH]; intros m s Hn Hm.
  - destruct s; [|cbn [length] in Hn; lia]. by rewrite !split_whitespace_nil.
  - destruct m as [|m].
    { destruct s; [|cbn [length] in Hm; lia]. by rewrite !split_whitespace_nil. }
    rewrite !split_whitespace_S. pose proof (lstrip_length s) as Hl.
    destruct (lstrip s) as [|c r] eqn:Hs; [done|].
    pose proof (token_rest_length c r (lstrip_head _ _ _ Hs)) as Hr.
    destruct (token (c :: r)) as [t rest]. cbn [snd] in Hr.
    f_equal. apply IH; lia.
Qed.

(** [split(maxsplit=n)] has [n + 1] items exactly when [split()] has more
    than [n], and as many as [split()] otherwise. *)
Lemma split_max_length n s :
  length (split_max n s) = (S n `min` length (split s))%nat.
Proof.
  unfold split_max, split.
  assert (∀ m, (length s ≤ m)%nat →
    length (split_whitespace n s) = (S n `min` length (split_whitespace m s))%nat)
    as Hgen; [|by apply Hgen].
  revert s. induction n as [|n IH]; intros s m Hm.
  - pose proof (lstrip_length s) as Hl.
    destruct m as [|m]; cbn [split_whitespace].
    + destruct s; [done|cbn [length] in Hm; lia].
    + destruct (lstrip s) as [|c r]; [done|].
      destruct (token (c :: r)). cbn [length]. lia.
  - pose proof (lstrip_length s) as Hl.
    destruct m as [|m].
    { destruct s; [done|cbn [length] in Hm; lia]. }
    rewrite !split_whitespace_S. destruct (lstrip s) as [|c r] eqn:Hs; [done|].
    pose proof (token_rest_length c r (lstrip_head _ _ _ Hs)) as Hr.
    destruct (token (c :: r)) as [t rest]. cbn [snd length] in *.
    rewrite (IH rest m) by lia. lia.
Qed.


Lemma lstrip_app x y :
  lstrip (x ++ y) = match lstrip x with [] => lstrip y | r => r ++ y end.
Proof.
  induction x as [|c x IH]; cbn [app lstrip].
  - by destruct (lstrip y).
  - destruct (isspace c); [done|]. done.
Qed.

Lemma rstrip_app x y :
  rstrip (x ++ y) = match rstrip y with [] => rstrip x | r => x ++ r end.
Proof.
  unfold rstrip. rewrite reverse_app, lstrip_app.
  destruct (lstrip (reverse y)) as [|c r]; [done|].
  rewrite reverse_app, reverse_involutive.
  destruct (reverse (c :: r)) as [|d r'] eqn:Hrev; [|done].
  apply (f_equal length) in Hrev. rewrite length_reverse in Hrev. done.
Qed.

Lemma rstrip_nospace t : nospace t → rstrip t = t.
Proof.
  intros Ht. destruct t as [|c t] using rev_ind; [done|].
  apply rstrip_snoc. apply Forall_app in Ht as [_ Hc]. by apply Forall_inv in Hc.
Qed.

(** A word followed by nothing or by whitespace and more: stripping keeps
    the word, and the word is the first item of the split. *)
Lemma strip_word w tail :
  w ≠ [] → nospace w → strip (w ++ tail) = w ++ rstrip tail.
Proof.
  intros Hne Hw. unfold strip. rewrite lstrip_field, rstrip_app by done.
  destruct (rstrip tail); [|done].
  by rewrite rstrip_nospace, app_nil_r.
Qed.

Lemma rstrip_head c r :
  isspace c = true →
  rstrip (c :: r) = [] ∨ ∃ r', rstrip (c :: r) = c :: r'.
Proof.
  intros Hc. change (c :: r) with ([c] ++ r). rewrite rstrip_app.
  destruct (rstrip r) as [|d r'].
  - left. unfold rstrip. cbn. by rewrite Hc.
  - right. by eexists.
Qed.

Lemma split_word w t :
  w ≠ [] → nospace w → (t = [] ∨ ∃ c r, t = c :: r ∧ isspace c = true) →
  split (w ++ t) = w :: split t.
Proof.
  intros Hne Hw Ht. unfold split. rewrite length_app.
  destruct w as [|c w]; [done|]. cbn [length Nat.add].
  rewrite split_whitespace_field by done.
  f_equal. apply split_whitespace_saturates; lia.
Qed.

End Py_facts.

(** ** The log analyser *)

Module Log_facts.
Import Py Py_facts Task_three.

Section Parser.
Context `{Unicode}.

Lemma level_field l : l ∈ LOG_LEVELS → field l.
Proof.
  unfold LOG_LEVELS. rewrite !elem_of_cons, elem_of_nil.
  intros [->|[->|[->|[->|[]]]]]; (split; [done|]);
    apply Forall_forall; intros c Hc; vm_compute in Hc;
    repeat (apply elem_of_cons in Hc as [->|Hc]; [done|]);
    by apply elem_of_nil in Hc.
Qed.

Lemma gap_head ws s :
  gap ws → ∃ c r, ws ++ s = c :: r ∧ isspace c = true.
Proof.
  intros [Hne Hws]. destruct Hws as [|c ws Hc _]; [done|]. by exists c, (ws ++ s).
Qed.

(** The four items of a well-formed line. *)
Lemma split_well_formed d t l m ws1 ws2 ws3 :
  field d → field t → field l → trimmed m → gap ws1 → gap ws2 → gap ws3 →
  split_max 3 (d ++ ws1 ++ t ++ ws2 ++ l ++ ws3 ++ m) = [d; t; l; m].
Proof.
  intros [? ?] [? ?] [? ?] [(c & Hc & Hcs) _] Hw1 Hw2 Hw3. unfold split_max.
  rewrite split_whitespace_field by (try done; right; by apply gap_head).
  rewrite split_whitespace_allspace_app by apply Hw1.
  rewrite split_whitespace_field by (try done; right; by apply gap_head).
  rewrite split_whitespace_allspace_app by apply Hw2.
  rewrite split_whitespace_field by (try done; right; by apply gap_head).
  destruct m as [|c' m']; [done|]. injection Hc as ->.
  by rewrite split_whitespace_rest by (done || apply Hw3).
Qed.

Lemma trimmed_line d ws1 t ws2 l ws3 m :
  field d → trimmed m → trimmed (d ++ ws1 ++ t ++ ws2 ++ l ++ ws3 ++ m).
Proof.
  intros [Hne Hd] [_ (c & Hc & Hcs)]. split.
  - destruct Hd as [|c0 d Hc0 _]; [done|]. by exists c0.
  - exists c. split; [|done].
    apply last_Some in Hc as [m' ->]. rewrite !app_assoc. by rewrite last_snoc.
Qed.

(** C1. A line made of a date, a time, a level of [LOG_LEVELS] and a
    message, separated by whitespace (and possibly surrounded by it), is
    parsed into exactly these four fields; the message, which starts and
    ends with a code point that is not whitespace, is kept as it is,
    inner whitespace included. *)
Theorem parse_log_line_well_formed (D T L M ws0 ws1 ws2 ws3 ws4 : str) :
  field D → field T → L ∈ LOG_LEVELS → trimmed M →
  allspace ws0 → gap ws1 → gap ws2 → gap ws3 → allspace ws4 →
  parse_log_line (ws0 ++ (D ++ ws1 ++ T ++ ws2 ++ L ++ ws3 ++ M) ++ ws4)
  = Return {| date := D; time := T; level := L; message := M |}.
Proof.
  intros HD HT HL HM Hws0 Hws1 Hws2 Hws3 Hws4.
  pose proof (level_field L HL) as HLf.
  unfold parse_log_line.
  rewrite strip_trimmed by (done || by apply trimmed_line).
  rewrite split_well_formed by done. cbn [length].
  rewrite bool_decide_eq_false_2 by lia.
  rewrite bool_decide_eq_false_2 by (by intros Hn). done.
Qed.

(** The three ways [parse_log_line] ends, by the items of the split. *)
Lemma parse_log_line_cases line :
  let parts := split_max 3 (strip line) in
  ((length parts < 4)%nat ∧ parse_log_line line = Raise (format_error line))
  ∨ (∃ d t l m, parts = [d; t; l; m] ∧ (l ∉ LOG_LEVELS)
       ∧ parse_log_line line = Raise (unknown_level_error l line))
  ∨ (∃ d t l m, parts = [d; t; l; m] ∧ l ∈ LOG_LEVELS
       ∧ parse_log_line line
         = Return {| date := d; time := t; level := l; message := m |}).
Proof.
  intros parts. unfold parse_log_line. fold parts.
  pose proof (split_whitespace_length 3 (strip line)) as Hlen.
  fold (split_max 3 (strip line)) in Hlen. fold parts in Hlen.
  case_bool_decide as Hshort; [by left|]. right.
  destruct parts as [|d [|t [|l [|m [|x rest]]]]];
    cbn [length] in Hlen, Hshort; try lia.
  case_bool_decide as Hl.
  - left. by exists d, t, l, m.
  - right. exists d, t, l, m. split_and!; [done| |done].
    by destruct (decide (l ∈ LOG_LEVELS)).
Qed.

Lemma format_error_not_unknown_level line l line' :
  format_error line ≠ unknown_level_error l line'.
Proof.
  unfold format_error, unknown_level_error. by intros [= Heq].
Qed.

(** C2. [parse_log_line] fails with the format error exactly when the
    split of the stripped line has fewer than four items (which
    [split()] and [split(maxsplit=3)] agree on), with the unknown-level
    error exactly when it has four items and the third is not in
    [LOG_LEVELS], and returns a record exactly when it has four items
    and the third is in [LOG_LEVELS]; it raises nothing else. *)
Theorem parse_log_line_outcomes (line : str) :
  let parts := split_max 3 (strip line) in
  ((length parts < 4)%nat ↔ (length (split (strip line)) < 4)%nat)
  ∧ (parse_log_line line = Raise (format_error line)
     ↔ (length parts < 4)%nat)
  ∧ ((∃ l, parse_log_line line = Raise (unknown_level_error l line))
     ↔ ∃ d t l m, parts = [d; t; l; m] ∧ (l ∉ LOG_LEVELS))
  ∧ ((∃ rec, parse_log_line line = Return rec)
     ↔ ∃ d t l m, parts = [d; t; l; m] ∧ l ∈ LOG_LEVELS)
  ∧ (∀ exc, parse_log_line line = Raise exc →
       exc = format_error line ∨ ∃ l, exc = unknown_level_error l line).
Proof.
  intros parts.
  pose proof (parse_log_line_cases line) as Hcases. fold parts in Hcases.
  split; [unfold parts; rewrite split_max_length; lia|].
  clearbody parts. split; [|split; [|split]].
  - destruct Hcases as [[Hlen ->]|[(d & t & l & m & Hp & Hl & ->)
                                  |(d & t & l & m & Hp & Hl & ->)]].
    + done.
    + rewrite Hp. cbn [length]. split; [|lia].
      intros Heq. destruct (format_error_not_unknown_level line l line).
      congruence.
    + rewrite Hp. cbn [length]. split; [done|lia].
  - destruct Hcases as [[Hlen ->]|[(d & t & l & m & Hp & Hl & ->)
                                  |(d & t & l & m & Hp & Hl & ->)]].
    + split.
      * intros [l Heq]. destruct (format_error_not_unknown_level line l line).
        congruence.
      * intros (d & t & l & m & Hp & _). rewrite Hp in Hlen.
        cbn [length] in Hlen. lia.
    + split; [|by eauto]. intros _. by exists d, t, l, m.
    + split; [by intros [? ?]|].
      intros (d' & t' & l' & m' & Hp' & Hl'). by simplify_eq.
  - destruct Hcases as [[Hlen ->]|[(d & t & l & m & Hp & Hl & ->)
                                  |(d & t & l & m & Hp & Hl & ->)]].
    + split; [by intros [? ?]|].
      intros (d & t & l & m & Hp & _). rewrite Hp in Hlen.
      cbn [length] in Hlen. lia.
    + split; [by intros [? ?]|].
      intros (d' & t' & l' & m' & Hp' & Hl'). by simplify_eq.
    + split; [|by eauto]. intros _. by exists d, t, l, m.
  - intros exc Hexc.
    destruct Hcases as [[Hlen Hr]|[(d & t & l & m & Hp & Hl & Hr)
                                  |(d & t & l & m & Hp & Hl & Hr)]];
      rewrite Hr in Hexc; simplify_eq; eauto.
Qed.

Lemma parse_log_line_raises line exc :
  parse_log_line line = Raise exc → exc_type exc = ValueError.
Proof.
  intros Hexc.
  destruct (parse_log_line_cases line)
    as [[_ Hr]|[(d & t & l & m & _ & _ & Hr)|(d & t & l & m & _ & _ & Hr)]];
    rewrite Hr in Hexc; by simplify_eq.
Qed.

Lemma parse_log_line_level line rec :
  parse_log_line line = Return rec → level rec ∈ LOG_LEVELS.
Proof.
  intros Hrec.
  destruct (parse_log_line_cases line)
    as [[_ Hr]|[(d & t & l & m & _ & _ & Hr)|(d & t & l & m & _ & Hl & Hr)]];
    rewrite Hr in Hrec; by simplify_eq.
Qed.
End Parser.

Section Loader.
Context `{Unicode}.

Lemma io_bind_pure {A B} (a : A) (f : A → io B) : (([], Return a) ≫= f) = f a.
Proof. unfold mbind, io_bind. by destruct (f a). Qed.

Lemma io_bind_return {A B} out (a : A) (f : A → io B) :
  ((out, Return a) ≫= f) = (out ++ (f a).1, (f a).2).
Proof. unfold mbind, io_bind. by destruct (f a). Qed.

Lemma io_bind_raise {A B} out exc (f : A → io B) :
  ((out, Raise exc) ≫= f) = (out, Raise exc).
Proof. done. Qed.

Lemma io_mret {A} (a : A) : mret a = (([], Return a) : io A).
Proof. done. Qed.

Lemma try_except_return {A} out (a : A) clauses :
  try_except (out, Return a) clauses = (out, Return a).
Proof. done. Qed.

Lemma try_except_raise {A} out exc (clauses : list (clause A)) :
  try_except (out, Raise exc) clauses
  = (out ++ (dispatch exc clauses).1, (dispatch exc clauses).2).
Proof. unfold try_except. by destruct (dispatch exc clauses). Qed.

(** The warnings of the lines that follow line [k] of the file. *)
Lemma for_lines_spec k lines logs :
  for_lines (Z.of_nat k + 1) lines logs
  = (omap rejected (imap (λ i, pair (k + i)%nat) lines),
     Return (logs ++ records_of lines)).
Proof.
  revert k logs. induction lines as [|line rest IH]; intros k logs.
  { cbn. by rewrite app_nil_r. }
  cbn [for_lines]. rewrite imap_cons. cbn [omap list_omap].
  unfold records_of. rewrite filter_cons. fold (records_of rest).
  replace (Z.of_nat k + 1 + 1)%Z with (Z.of_nat (S k) + 1)%Z by lia.
  assert (imap ((λ i, pair (k + i)%nat) ∘ S) rest
          = imap (λ i, pair (S k + i)%nat) rest) as ->.
  { apply imap_ext. intros i x _. cbn. f_equal. lia. }
  unfold rejected at 1. cbn [fst snd]. unfold blank at 1 2.
  case_bool_decide as Hblank.
  - rewrite decide_True by done. rewrite decide_False by (by intros Hn).
    apply IH.
  - rewrite decide_False by done. rewrite decide_True by done.
    cbn [omap list_omap]. unfold parsed at 1.
    destruct (parse_log_line line) as [rec|exc] eqn:Hparse.
    + unfold lift. rewrite io_bind_pure, io_mret, try_except_return.
      rewrite io_bind_pure, IH. by rewrite <- app_assoc.
    + pose proof (parse_log_line_raises _ _ Hparse) as Hcls.
      unfold lift. rewrite io_bind_raise, try_except_raise.
      cbn [dispatch]. unfold isinstance. rewrite Hcls. cbn [existsb].
      unfold print_err. rewrite io_bind_return, io_mret. cbn [fst snd app].
      change (issubclass ValueError ValueError || false) with true.
      cbn [fst snd]. rewrite io_bind_return, IH. cbn [fst snd app].
      by rewrite Nat.add_0_r.
Qed.

Lemma records_of_length lines :
  length (records_of lines) = length (filter valid lines).
Proof.
  unfold records_of. induction lines as [|line rest IH]; [done|].
  rewrite !filter_cons.
  destruct (decide (¬ blank line)) as [Hnb|Hb];
    destruct (decide (valid line)) as [[Hnb' Hv]|Hnv]; try done.
  - destruct Hv as [rec Hp]. cbn [omap list_omap]. rewrite Hp.
    cbn [length]. by rewrite IH.
  - cbn [omap list_omap]. destruct (parsed line) as [rec|] eqn:Hp; [|done].
    destruct Hnv. split; [done|by eexists].
Qed.

Lemma warnings_of_length_from k lines :
  length (omap rejected (imap (λ i, pair (k + i)%nat) lines))
  = length (filter malformed lines).
Proof.
  revert k. induction lines as [|line rest IH]; intros k; [done|].
  rewrite imap_cons, filter_cons. cbn [omap list_omap].
  assert (imap ((λ i, pair (k + i)%nat) ∘ S) rest
          = imap (λ i, pair (S k + i)%nat) rest) as ->.
  { apply imap_ext. intros i x _. cbn. f_equal. lia. }
  unfold rejected at 1. cbn [fst snd].
  destruct (decide (malformed line)) as [[Hnb Hp]|Hnm].
  - rewrite decide_False by done. unfold parsed in Hp.
    destruct (parse_log_line line) as [rec|exc]; [done|].
    cbn [length]. by rewrite IH.
  - destruct (decide (blank line)) as [Hb|Hnb]; [apply IH|].
    destruct (parse_log_line line) as [rec|exc] eqn:Hp; [apply IH|].
    destruct Hnm. split; [done|]. unfold parsed. by rewrite Hp.
Qed.

Lemma load_logs_returns fs file_path lines :
  readable fs file_path lines →
  load_logs fs file_path = (warnings_of lines, Return (records_of lines)).
Proof.
  intros Hfs. unfold readable in Hfs. unfold load_logs. rewrite Hfs.
  change 1%Z with (Z.of_nat 0 + 1)%Z. rewrite for_lines_spec.
  rewrite io_bind_return. cbn. by rewrite app_nil_r.
Qed.

(** C3. When the file can be read to its end, [load_logs] returns the
    records of the non-blank lines that parse, in file order, and writes
    to [stderr] one warning, with the line number, for each non-blank line
    that does not parse, and nothing for a blank line; so there are as many
    records as valid lines and as many warnings as malformed lines: three
    and one for a file with three valid lines and one malformed line. *)
Theorem load_logs_readable fs file_path lines :
  readable fs file_path lines →
  load_logs fs file_path = (warnings_of lines, Return (records_of lines))
  ∧ length (records_of lines) = length (filter valid lines)
  ∧ length (warnings_of lines) = length (filter malformed lines)
  ∧ (length (filter valid lines) = 3%nat
     → length (filter malformed lines) = 1%nat
     → length (records_of lines) = 3%nat
       ∧ length (warnings_of lines) = 1%nat).
Proof.
  intros Hfs.
  assert (length (warnings_of lines) = length (filter malformed lines)) as Hw.
  { apply (warnings_of_length_from 0). }
  split; [by apply load_logs_returns|].
  split; [apply records_of_length|split; [done|]].
  intros Hv Hm. by rewrite records_of_length, Hw.
Qed.

(** The two [except] clauses of [load_logs]. *)
Local Abbreviation load_logs_clauses file_path :=
  [([FileNotFoundError],
    λ _ : exn, raise (A := list LogRecord) FileNotFoundError
                 (u "File not found: " ++ file_path));
   ([OSError],
    λ exc : exn, raise OSError (u "Error reading file " ++ repr file_path%list
                                  ++ u ": " ++ str_exc exc))].

(** What [load_logs] raises for an [OSError] of the file system. *)
Local Abbreviation load_logs_error file_path exc :=
  (if issubclass (exc_type exc) FileNotFoundError
   then Exc FileNotFoundError (u "File not found: " ++ file_path)
   else Exc OSError (u "Error reading file " ++ repr file_path%list
                       ++ u ": " ++ str_exc exc)).

(** When the file system fails, the [try] statement of [load_logs] sees
    the exception, after the warnings of the lines read so far. *)
Lemma load_logs_fails fs file_path exc :
  fails_with fs file_path exc →
  ∃ out, load_logs fs file_path
         = try_except (out, Raise exc) (load_logs_clauses file_path)
         ∧ (fs file_path = OpenRaises exc → out = []).
Proof.
  intros [Hfs|[lines Hfs]]; unfold load_logs; rewrite Hfs.
  - by exists [].
  - exists (warnings_of lines). split; [|by intros ?].
    change 1%Z with (Z.of_nat 0 + 1)%Z. rewrite for_lines_spec.
    rewrite io_bind_return. cbn [fst snd]. by rewrite app_nil_r.
Qed.

Lemma load_logs_catches out file_path exc :
  issubclass (exc_type exc) OSError = true →
  try_except (out, Raise exc) (load_logs_clauses file_path)
  = (out, Raise (load_logs_error file_path exc)).
Proof.
  intros Hos. unfold try_except, dispatch, isinstance. cbn [existsb].
  rewrite Hos, !orb_false_r.
  destruct (issubclass (exc_type exc) FileNotFoundError);
    unfold raise; by rewrite app_nil_r.
Qed.

Lemma load_logs_passes out file_path exc :
  issubclass (exc_type exc) OSError = false →
  try_except (out, Raise exc) (load_logs_clauses file_path)
  = (out, Raise exc).
Proof.
  intros Hos.
  assert (issubclass (exc_type exc) FileNotFoundError = false) as Hnf.
  { by destruct (exc_type exc). }
  unfold try_except, dispatch, isinstance. cbn [existsb].
  rewrite Hos, Hnf. cbn [orb]. by rewrite app_nil_r.
Qed.

(** C4. When opening the file, or reading it, fails with an [OSError]
    (missing file, permission denied, any other I/O failure), [load_logs]
    returns no list: it raises [FileNotFoundError] with the path in its
    message when the failure is a [FileNotFoundError], and [OSError] with
    the [repr] of the path and the cause in its message otherwise. When it
    is [open] that fails, nothing has been written either. *)
Theorem load_logs_unavailable fs file_path exc :
  fails_with fs file_path exc →
  issubclass (exc_type exc) OSError = true →
  ∃ out,
    load_logs fs file_path
    = (out,
       Raise (if issubclass (exc_type exc) FileNotFoundError
              then Exc FileNotFoundError (u "File not found: " ++ file_path)
              else Exc OSError (u "Error reading file " ++ repr file_path
                                  ++ u ": " ++ str_exc exc)))
    ∧ (fs file_path = OpenRaises exc → out = []).
Proof.
  intros Hfs Hos.
  destruct (load_logs_fails fs file_path exc Hfs) as (out & Hload & Hout).
  exists out. split; [|done].
  rewrite Hload. by apply load_logs_catches.
Qed.

(** What the caller of [load_logs] sees when the file system fails. *)
Lemma load_logs_raises fs file_path exc :
  fails_with fs file_path exc →
  (load_logs fs file_path).2
  = Raise (if issubclass (exc_type exc) OSError
           then load_logs_error file_path exc
           else exc).
Proof.
  intros Hfs.
  destruct (load_logs_fails fs file_path exc Hfs) as (out & -> & _).
  destruct (issubclass (exc_type exc) OSError) eqn:Hos.
  - by rewrite load_logs_catches.
  - by rewrite load_logs_passes.
Qed.
End Loader.

Section Aggregator.
Context `{Unicode}.

Lemma elem_of_LOG_LEVELS l :
  l ∈ LOG_LEVELS ↔ l = u "INFO" ∨ l = u "ERROR" ∨ l = u "DEBUG" ∨ l = u "WARNING".
Proof.
  unfold LOG_LEVELS. rewrite !elem_of_cons, elem_of_nil. tauto.
Qed.

(** The dictionary that the comprehension builds. *)
Lemma initial_counts_lookup l :
  foldl (λ d lvl, <[lvl := 0%Z]> d) (∅ : gmap str Z) LOG_LEVELS !! l
  = if decide (l ∈ LOG_LEVELS) then Some 0%Z else None.
Proof.
  cbn [foldl LOG_LEVELS]. rewrite !lookup_insert, lookup_empty.
  destruct (decide (l ∈ LOG_LEVELS)) as [Hl|Hl];
    rewrite elem_of_LOG_LEVELS in Hl; repeat case_decide;
    try done; intuition congruence.
Qed.

Lemma occurrences_nil l : occurrences l [] = 0%Z.
Proof. done. Qed.

Lemma occurrences_cons l rec logs :
  occurrences l (rec :: logs)
  = ((if decide (level rec = l) then 1 else 0) + occurrences l logs)%Z.
Proof.
  unfold occurrences. rewrite filter_cons.
  case_decide; cbn [length]; lia.
Qed.

(** The loop of [count_logs_by_level] ends when every level it meets is a
    key, and then each key has gained its number of records. *)
Lemma tally_total logs counts :
  Forall (λ rec, is_Some (counts !! level rec)) logs →
  ∃ counts', tally logs counts = Return counts'
    ∧ ∀ l, counts' !! l = (λ n, n + occurrences l logs)%Z <$> counts !! l.
Proof.
  revert counts. induction logs as [|rec rest IH]; intros counts Hkeys.
  { exists counts. split; [done|]. intros l.
    destruct (counts !! l); cbn; [f_equal; rewrite occurrences_nil; lia|done]. }
  apply Forall_cons in Hkeys as [[n Hn] Hrest]. cbn [tally]. rewrite Hn.
  destruct (IH (<[level rec := (n + 1)%Z]> counts)) as (counts' & -> & Hcounts').
  { eapply Forall_impl; [exact Hrest|]. intros rec' Hsome. cbn beta in *.
    rewrite lookup_insert. by case_decide. }
  exists counts'. split; [done|]. intros l.
  rewrite Hcounts', lookup_insert, occurrences_cons.
  case_decide as Hl.
  - subst l. rewrite Hn. cbn. f_equal. lia.
  - destruct (counts !! l); cbn; [f_equal; lia|done].
Qed.

(** The loop stops at the first level that is not a key. *)
Lemma tally_raises logs counts :
  (∀ l, is_Some (counts !! l) ↔ l ∈ LOG_LEVELS) →
  Exists (λ rec, level rec ∉ LOG_LEVELS) logs →
  ∃ key, tally logs counts = Raise (Exc KeyError key) ∧ key ∉ LOG_LEVELS.
Proof.
  intros Hkeys Hbad. revert counts Hkeys.
  induction logs as [|rec rest IH]; intros counts Hkeys.
  { by apply Exists_nil in Hbad. }
  cbn [tally]. destruct (counts !! level rec) as [n|] eqn:Hn.
  - apply Exists_cons in Hbad as [Hbad|Hbad].
    { destruct Hbad. apply Hkeys. by eexists. }
    apply IH; [done|]. intros l. rewrite lookup_insert.
    case_decide as Hl; [|apply Hkeys].
    subst l. split; [intros _|by eauto]. apply Hkeys. by eexists.
  - exists (level rec). split; [done|]. intros Hin.
    apply Hkeys in Hin as [? ?]. congruence.
Qed.

Lemma occurrences_sum logs :
  Forall (λ rec, level rec ∈ LOG_LEVELS) logs →
  (occurrences (u "INFO") logs + occurrences (u "ERROR") logs
   + occurrences (u "DEBUG") logs + occurrences (u "WARNING") logs)%Z
  = Z.of_nat (length logs).
Proof.
  induction 1 as [|rec rest Hrec _ IH]; [done|].
  rewrite !occurrences_cons. cbn [length].
  apply elem_of_LOG_LEVELS in Hrec as [Hl|[Hl|[Hl|Hl]]]; rewrite Hl;
    repeat case_decide; try done; lia.
Qed.

Lemma initial_counts_keys l :
  is_Some (foldl (λ d lvl, <[lvl := 0%Z]> d) (∅ : gmap str Z) LOG_LEVELS !! l)
  ↔ l ∈ LOG_LEVELS.
Proof.
  rewrite initial_counts_lookup. case_decide; split; done.
Qed.

Lemma count_logs_by_level_returns logs :
  Forall (λ rec, level rec ∈ LOG_LEVELS) logs →
  ∃ counts, count_logs_by_level logs = Return counts
    ∧ ∀ l, counts !! l
           = if decide (l ∈ LOG_LEVELS) then Some (occurrences l logs) else None.
Proof.
  intros Hlogs. unfold count_logs_by_level.
  destruct (tally_total logs
              (foldl (λ d lvl, <[lvl := 0%Z]> d) (∅ : gmap str Z) LOG_LEVELS))
    as (counts & Hcounts & Hlookup).
  { eapply Forall_impl; [exact Hlogs|]. intros rec Hrec.
    by apply initial_counts_keys. }
  exists counts. split; [done|]. intros l.
  rewrite Hlookup, initial_counts_lookup. by case_decide.
Qed.

(** C5. For records whose levels all are in [LOG_LEVELS],
    [count_logs_by_level] returns a dictionary whose keys are the four
    levels and no other, each mapped to the number of records of that
    level (0 for a level that no record has); the four counts add up to
    the number of records. *)
Theorem count_logs_by_level_total (logs : list LogRecord) :
  Forall (λ rec, level rec ∈ LOG_LEVELS) logs →
  ∃ counts, count_logs_by_level logs = Return counts
    ∧ dom counts = (list_to_set LOG_LEVELS : gset str)
    ∧ (∀ l, l ∈ LOG_LEVELS → counts !! l = Some (occurrences l logs))
    ∧ (∀ l, l ∈ LOG_LEVELS → Forall (λ rec, level rec ≠ l) logs →
         counts !! l = Some 0%Z)
    ∧ (get0 counts (u "INFO") + get0 counts (u "ERROR")
       + get0 counts (u "DEBUG") + get0 counts (u "WARNING"))%Z
      = Z.of_nat (length logs).
Proof.
  intros Hlogs.
  destruct (count_logs_by_level_returns logs Hlogs) as (counts & Hcounts & Hlookup).
  assert (∀ l, l ∈ LOG_LEVELS → counts !! l = Some (occurrences l logs)) as Hin.
  { intros l Hl. by rewrite Hlookup, decide_True. }
  exists counts. split; [done|]. split; [|split; [done|split]].
  - apply set_eq. intros l.
    rewrite elem_of_dom, elem_of_list_to_set, Hlookup.
    case_decide; split; done.
  - intros l Hl Hnone. rewrite Hin by done. f_equal.
    unfold occurrences. clear -Hnone.
    induction Hnone as [|rec rest Hrec _ IH]; [done|].
    by rewrite filter_cons, decide_False.
  - unfold get0. rewrite !Hin by (apply elem_of_LOG_LEVELS; tauto).
    cbn [default]. by apply occurrences_sum.
Qed.

(** C10. [count_logs_by_level] raises [KeyError], with a key that is not
    in [LOG_LEVELS], exactly when some record has a level that is not in
    [LOG_LEVELS]; it returns a dictionary exactly when every record has
    its level in [LOG_LEVELS]. *)
Theorem count_logs_by_level_key_error (logs : list LogRecord) :
  (Exists (λ rec, level rec ∉ LOG_LEVELS) logs
   ↔ ∃ key, count_logs_by_level logs = Raise (Exc KeyError key)
            ∧ key ∉ LOG_LEVELS)
  ∧ (Forall (λ rec, level rec ∈ LOG_LEVELS) logs
     ↔ ∃ counts, count_logs_by_level logs = Return counts).
Proof.
  assert (Exists (λ rec, level rec ∉ LOG_LEVELS) logs →
          ∃ key, count_logs_by_level logs = Raise (Exc KeyError key)
                 ∧ key ∉ LOG_LEVELS) as Hraise.
  { intros Hbad. apply tally_raises; [|done]. apply initial_counts_keys. }
  assert (Forall (λ rec, level rec ∈ LOG_LEVELS) logs →
          ∃ counts, count_logs_by_level logs = Return counts) as Hreturn.
  { intros Hlogs.
    destruct (count_logs_by_level_returns logs Hlogs) as (counts & ? & _).
    by exists counts. }
  destruct (decide (Forall (λ rec, level rec ∈ LOG_LEVELS) logs)) as [Hall|Hsome].
  - destruct (Hreturn Hall) as [counts Hcounts]. split; split.
    + done.
    + intros (key & Hkey & _). congruence.
    + by exists counts.
    + done.
  - apply not_Forall_Exists in Hsome; [|apply _].
    destruct (Hraise Hsome) as (key & Hkey & Hnot).
    split; split.
    + by exists key.
    + done.
    + intros Hall. by apply Exists_not_Forall in Hsome.
    + intros [counts Hcounts]. congruence.
Qed.

Lemma filter_logs_by_level_code logs lvl :
  filter_logs_by_level logs lvl
  = if decide (upper lvl ∈ LOG_LEVELS)
    then Return (filter (λ rec, level rec = upper lvl) logs)
    else Raise (unsupported_level_error lvl).
Proof.
  unfold filter_logs_by_level. case_bool_decide; case_decide; done.
Qed.

(** C6. [filter_logs_by_level] raises the unsupported-level error exactly
    when the upper-cased level is not in [LOG_LEVELS]; otherwise it returns
    the records whose level is the upper-cased level, each as often as in
    [logs] and in the order of [logs]. So [error] and [ERROR] select the
    same records, and [CRITICAL] is refused. *)
Theorem filter_logs_by_level_spec (logs : list LogRecord) (lvl : str) :
  (filter_logs_by_level logs lvl = Raise (unsupported_level_error lvl)
   ↔ upper lvl ∉ LOG_LEVELS)
  ∧ (∀ out, filter_logs_by_level logs lvl = Return out
       ↔ upper lvl ∈ LOG_LEVELS
         ∧ out = filter (λ rec, level rec = upper lvl) logs)
  ∧ (∀ out, filter_logs_by_level logs lvl = Return out →
       out `sublist_of` logs
       ∧ ∀ rec, rec ∈ out ↔ rec ∈ logs ∧ level rec = upper lvl)
  ∧ filter_logs_by_level logs (u "error") = filter_logs_by_level logs (u "ERROR")
  ∧ filter_logs_by_level logs (u "CRITICAL")
    = Raise (unsupported_level_error (u "CRITICAL")).
Proof.
  pose proof (filter_logs_by_level_code logs) as Hcode.
  assert (upper (u "error") = u "ERROR") as Herror by (by rewrite upper_ascii).
  assert (upper (u "ERROR") = u "ERROR") as HERROR by (by rewrite upper_ascii).
  assert (upper (u "CRITICAL") = u "CRITICAL") as HCRIT by (by rewrite upper_ascii).
  split; [|split; [|split; [|split]]].
  - rewrite Hcode. case_decide; split; done.
  - intros out. rewrite Hcode. case_decide; split.
    + by intros [= <-].
    + by intros [_ ->].
    + done.
    + by intros [? _].
  - intros out. rewrite Hcode. case_decide; [|done]. intros [= <-]. split.
    + apply sublist_filter.
    + intros rec. rewrite list_elem_of_filter. tauto.
  - by rewrite !Hcode, Herror, HERROR.
  - rewrite Hcode, HCRIT. by rewrite decide_False by by_decision.
Qed.
End Aggregator.

Section Driver.
Context `{Unicode}.

Lemma io_bind_returns {A B} (m : io A) (a : A) (f : A → io B) :
  m.2 = Return a → (m ≫= f) = (m.1 ++ (f a).1, (f a).2).
Proof. destruct m as [out r]. cbn [snd]. intros ->. apply io_bind_return. Qed.

Lemma io_bind_raises {A B} (m : io A) exc (f : A → io B) :
  m.2 = Raise exc → (m ≫= f) = (m.1, Raise exc).
Proof. destruct m as [out r]. cbn [snd]. by intros ->. Qed.

Lemma for_each_returns {A} (xs : list A) (f : A → str) :
  (for_each xs (λ x, print (f x))).2 = Return ().
Proof.
  induction xs as [|x rest IH]; [done|].
  cbn [for_each]. by rewrite (io_bind_returns _ ()) by done.
Qed.

Lemma display_log_counts_returns counts :
  (display_log_counts counts).2 = Return ().
Proof.
  unfold display_log_counts. cbv zeta.
  rewrite !(io_bind_returns (print _) ()) by done. cbn [snd].
  apply for_each_returns.
Qed.

Lemma display_log_details_returns logs lvl :
  (display_log_details logs lvl).2 = Return ().
Proof.
  unfold display_log_details. cbv zeta.
  rewrite (io_bind_returns (print _) ()) by done. cbn [snd].
  case_bool_decide; [done|apply for_each_returns].
Qed.

Lemma records_of_levels lines :
  Forall (λ rec, level rec ∈ LOG_LEVELS) (records_of lines).
Proof.
  apply Forall_forall. intros rec Hrec. unfold records_of in Hrec.
  apply list_elem_of_omap in Hrec as (line & _ & Hline).
  unfold parsed in Hline.
  destruct (parse_log_line line) as [rec'|] eqn:Hparse; [|done].
  injection Hline as ->. by eapply parse_log_line_level.
Qed.

(** The body and the handler of the [try] statement of [main]. *)
Local Abbreviation main_body fs file_path rest :=
  (logs ← load_logs fs file_path;
   counts ← lift (count_logs_by_level logs);
   display_log_counts counts;;
   match head rest with
   | Some lvl =>
       filtered ← lift (filter_logs_by_level logs lvl);
       display_log_details filtered lvl
   | None => mret ()
   end;;
   mret (@None Z)).

Local Abbreviation main_clauses :=
  [([FileNotFoundError; OSError; ValueError],
    λ exc, print_err (u "Error: " ++ str_exc exc);; mret (Some 1%Z))].

(** What [main] does once it has a path. *)
Lemma main_with_path fs prog file_path rest :
  main fs (prog :: file_path :: rest)
  = (returned ← try_except (main_body fs file_path rest) main_clauses;
     match returned with
     | Some code => mret code
     | None => mret 0%Z
     end).
Proof.
  unfold main. rewrite bool_decide_eq_false_2 by (cbn [length]; lia).
  cbn [lookup list_lookup].
  destruct rest as [|lvl rest].
  - by rewrite bool_decide_eq_false_2 by (cbn [length]; lia).
  - by rewrite bool_decide_eq_true_2 by (cbn [length]; lia).
Qed.

Lemma io_bind_snd_returns {A B} (m : io A) (a : A) (f : A → io B) :
  m.2 = Return a → (m ≫= f).2 = (f a).2.
Proof. intros Hm. by rewrite (io_bind_returns _ _ _ Hm). Qed.

Lemma io_bind_snd_raises {A B} (m : io A) exc (f : A → io B) :
  m.2 = Raise exc → (m ≫= f).2 = Raise exc.
Proof. intros Hm. by rewrite (io_bind_raises _ _ _ Hm). Qed.

Lemma try_except_returns {A} (m : io A) (a : A) clauses :
  m.2 = Return a → try_except m clauses = m.
Proof. destruct m as [out r]. cbn [snd]. by intros ->. Qed.

Lemma try_except_raises {A} (m : io A) exc (clauses : list (clause A)) :
  m.2 = Raise exc →
  try_except m clauses
  = (m.1 ++ (dispatch exc clauses).1, (dispatch exc clauses).2).
Proof. destruct m as [out r]. cbn [snd]. intros ->. apply try_except_raise. Qed.

Lemma main_returns fs prog file_path rest :
  (main_body fs file_path rest).2 = Return None →
  main fs (prog :: file_path :: rest)
  = ((main_body fs file_path rest).1, Return 0%Z).
Proof.
  intros Hbody. rewrite main_with_path.
  rewrite (try_except_returns _ _ _ Hbody).
  rewrite (io_bind_returns _ _ _ Hbody). cbn [fst snd]. by rewrite app_nil_r.
Qed.

Lemma main_reports fs prog file_path rest exc :
  (main_body fs file_path rest).2 = Raise exc →
  isinstance exc [FileNotFoundError; OSError; ValueError] = true →
  main fs (prog :: file_path :: rest)
  = ((main_body fs file_path rest).1 ++ [Stderr (u "Error: " ++ str_exc exc)],
     Return 1%Z).
Proof.
  intros Hbody Hcaught. rewrite main_with_path.
  rewrite (try_except_raises _ _ _ Hbody). cbn [dispatch]. rewrite Hcaught.
  unfold print_err. rewrite io_bind_return, !io_mret. cbn [fst snd].
  rewrite io_bind_return. cbn [fst snd]. by rewrite !app_nil_r.
Qed.

Lemma main_body_readable fs file_path rest lines :
  readable fs file_path lines →
  (main_body fs file_path rest).2
  = match head rest with
    | Some lvl =>
        match filter_logs_by_level (records_of lines) lvl with
        | Return _ => Return None
        | Raise exc => Raise exc
        end
    | None => Return None
    end.
Proof.
  intros Hfs.
  pose proof (load_logs_returns fs file_path lines Hfs) as Hload.
  destruct (count_logs_by_level_returns _ (records_of_levels lines))
    as (counts & Hcounts & _).
  rewrite (io_bind_snd_returns _ (records_of lines)) by by rewrite Hload.
  rewrite (io_bind_snd_returns _ counts) by by rewrite Hcounts.
  rewrite (io_bind_snd_returns _ ()) by apply display_log_counts_returns.
  destruct (head rest) as [lvl|].
  - destruct (filter_logs_by_level (records_of lines) lvl) as [filtered|exc].
    + rewrite (io_bind_snd_returns _ ()); [done|].
      rewrite (io_bind_snd_returns _ filtered) by done.
      apply display_log_details_returns.
    + by rewrite (io_bind_snd_raises _ exc).
  - by rewrite (io_bind_snd_returns _ ()).
Qed.

Lemma main_body_unavailable fs file_path rest exc :
  (load_logs fs file_path).2 = Raise exc →
  (main_body fs file_path rest).2 = Raise exc.
Proof. intros Hload. by rewrite (io_bind_snd_raises _ exc). Qed.

(** C7. [main] returns 1 after the usage message on [stderr] when [argv]
    has no path. With a path: it returns 0 when the file can be read to
    its end and the level argument, if there is one, is supported, however
    many records have that level; it returns 1, after a message on
    [stderr], when opening or reading the file fails with an [OSError] or a
    [ValueError] (a missing file, a file that cannot be read or decoded),
    and when the file can be read but the level argument is not
    supported. *)
Theorem main_exit_code (fs : filesystem) (argv : list str) :
  ((length argv < 2)%nat → main fs argv = ([usage], Return 1%Z))
  ∧ (∀ prog file_path rest lines,
       argv = prog :: file_path :: rest →
       readable fs file_path lines →
       (∀ lvl, head rest = Some lvl → supported lvl) →
       ∃ out, main fs argv = (out, Return 0%Z))
  ∧ (∀ prog file_path rest exc,
       argv = prog :: file_path :: rest →
       fails_with fs file_path exc →
       isinstance exc [OSError; ValueError] = true →
       ∃ out msg,
         main fs argv = (out ++ [Stderr (u "Error: " ++ msg)], Return 1%Z))
  ∧ (∀ prog file_path lvl rest lines,
       argv = prog :: file_path :: lvl :: rest →
       readable fs file_path lines →
       ¬ supported lvl →
       ∃ out,
         main fs argv
         = (out ++ [Stderr (u "Error: "
                              ++ exc_arg (unsupported_level_error lvl))],
            Return 1%Z)).
Proof.
  split; [|split; [|split]].
  - intros Hlen. unfold main. by rewrite bool_decide_eq_true_2 by done.
  - intros prog file_path rest lines -> Hfs Hlvl.
    eexists. apply main_returns.
    rewrite (main_body_readable _ _ _ lines Hfs).
    destruct (head rest) as [lvl|]; [|done].
    specialize (Hlvl lvl eq_refl). unfold supported in Hlvl.
    by rewrite filter_logs_by_level_code, decide_True.
  - intros prog file_path rest exc -> Hfs Hcaught.
    cbn [isinstance existsb] in Hcaught. rewrite orb_false_r in Hcaught.
    pose proof (load_logs_raises fs file_path exc Hfs) as Hload.
    eexists _, _. apply main_reports.
    + apply main_body_unavailable. exact Hload.
    + destruct (issubclass (exc_type exc) OSError) eqn:Hos.
      * by destruct (issubclass (exc_type exc) FileNotFoundError).
      * cbn [orb] in Hcaught. cbn [isinstance existsb].
        by rewrite Hcaught, !orb_true_r.
  - intros prog file_path lvl rest lines -> Hfs Hlvl.
    eexists. apply (main_reports _ _ _ _ (unsupported_level_error lvl)); [|done].
    rewrite (main_body_readable _ _ _ lines Hfs). cbn [head].
    by rewrite filter_logs_by_level_code, decide_False.
Qed.
End Driver.

End Log_facts.


(** ** The contact assistant *)

Module Contacts_facts.
Import Py Py_facts Task_four.

Lemma contains_true d key : contains d key = true ↔ is_Some (getitem d key).
Proof.
  unfold contains. rewrite bool_decide_eq_true.
  induction d as [|[k v] rest IH]; cbn [getitem fmap list_fmap fst].
  - rewrite elem_of_nil. split; [done|by intros [? ?]].
  - rewrite elem_of_cons, IH. case_decide; subst; split; try done.
    + by left.
    + intros [->|?]; done.
    + by right.
Qed.

Lemma contains_false d key : contains d key = false ↔ getitem d key = None.
Proof.
  rewrite <- not_true_iff_false, contains_true.
  destruct (getitem d key); split; try done.
  intros []. by eexists.
Qed.

Lemma getitem_setitem d key value key' :
  getitem (setitem d key value) key'
  = if decide (key = key') then Some value else getitem d key'.
Proof.
  induction d as [|[k v] rest IH]; cbn [setitem getitem].
  - by repeat case_decide.
  - repeat (case_decide; cbn [getitem]); subst; try done.
Qed.

Section Handlers.
Context `{Unicode}.

Lemma input_error_raise {X} (func : X → outcome) args contacts exc :
  func args = (contacts, Raise exc) →
  isinstance exc [ValueError; KeyError; IndexError] = true →
  input_error func args = (contacts, Return (str_exc exc)).
Proof. intros Hfunc Hcaught. unfold input_error. by rewrite Hfunc, Hcaught. Qed.

Lemma input_error_ValueError {X} (func : X → outcome) args contacts msg :
  func args = (contacts, Raise (Exc ValueError msg)) →
  input_error func args = (contacts, Return msg).
Proof.
  intros Hfunc.
  by rewrite (input_error_raise _ _ _ (Exc ValueError msg) Hfunc).
Qed.

Lemma input_error_return {X} (func : X → outcome) args contacts reply :
  func args = (contacts, Return reply) →
  input_error func args = (contacts, Return reply).
Proof. intros Hfunc. unfold input_error. by rewrite Hfunc. Qed.

Lemma not_found_reply_is_str :
  str_exc (Exc KeyError (u "Contact not found.")) = not_found_reply.
Proof.
  unfold str_exc. cbn [exc_type exc_arg].
  rewrite repr_plain by (vm_compute; reflexivity). vm_compute. reflexivity.
Qed.

Lemma add_contact_arity args contacts :
  length args ≠ 2%nat →
  add_contact (args, contacts) = (contacts, Return usage_reply).
Proof.
  intros Hlen. unfold add_contact, usage_reply.
  apply input_error_ValueError.
  cbv beta iota. by rewrite (bool_decide_eq_true_2 _ Hlen).
Qed.

Lemma add_contact_two name phone contacts :
  add_contact ([name; phone], contacts)
  = (setitem contacts name phone, Return (u "Contact added.")).
Proof. unfold add_contact. by apply input_error_return. Qed.

Lemma change_contact_arity args contacts :
  length args ≠ 2%nat →
  change_contact (args, contacts) = (contacts, Return usage_reply).
Proof.
  intros Hlen. unfold change_contact, usage_reply.
  apply input_error_ValueError.
  cbv beta iota. by rewrite (bool_decide_eq_true_2 _ Hlen).
Qed.

Lemma change_contact_two name new_phone contacts :
  change_contact ([name; new_phone], contacts)
  = if contains contacts name
    then (setitem contacts name new_phone, Return (u "Contact updated."))
    else (contacts, Return not_found_reply).
Proof.
  unfold change_contact. destruct (contains contacts name) eqn:Hin.
  - apply input_error_return. cbv beta iota. by rewrite Hin.
  - rewrite <- not_found_reply_is_str.
    apply input_error_raise; [|reflexivity]. cbv beta iota. by rewrite Hin.
Qed.

Lemma show_phone_arity args contacts :
  length args ≠ 1%nat →
  show_phone (args, contacts) = (contacts, Return (u "Enter user name.")).
Proof.
  intros Hlen. unfold show_phone.
  apply input_error_ValueError.
  cbv beta iota. by rewrite (bool_decide_eq_true_2 _ Hlen).
Qed.

Lemma show_phone_one name contacts :
  show_phone ([name], contacts)
  = (contacts, Return (default not_found_reply (getitem contacts name))).
Proof.
  unfold show_phone. destruct (contains contacts name) eqn:Hin.
  - pose proof Hin as Hin'. apply contains_true in Hin' as [phone Hphone].
    rewrite Hphone. apply input_error_return. cbv beta iota.
    rewrite bool_decide_eq_false_2 by (cbn [length]; lia).
    cbn [lookup list_lookup]. by rewrite Hin, Hphone.
  - pose proof Hin as Hin'. apply contains_false in Hin'. rewrite Hin'.
    cbn [default]. rewrite <- not_found_reply_is_str.
    apply input_error_raise; [|reflexivity]. cbv beta iota.
    rewrite bool_decide_eq_false_2 by (cbn [length]; lia).
    cbn [lookup list_lookup]. by rewrite Hin.
Qed.

Lemma show_all_returns contacts :
  ∃ reply, show_all contacts = (contacts, Return reply).
Proof.
  unfold show_all, input_error. case_bool_decide; by eexists.
Qed.

(** *** The command loop *)

Lemma parse_input_word w tail :
  w ≠ [] → nospace w → arguments tail →
  parse_input (w ++ tail) = (lower w, split (rstrip tail)).
Proof.
  intros Hne Hw Htail. unfold parse_input.
  rewrite strip_word by done. rewrite split_word; [done|done|done|].
  destruct Htail as [->|(c & r & -> & Hc)]; [by left|].
  destruct (rstrip_head c r Hc) as [->|[r' ->]]; [by left|].
  right. by eexists _, _.
Qed.

Lemma print_reply_return contacts reply :
  print_reply (contacts, Return reply)
  = ([Stdout reply], Return (Some contacts)).
Proof. done. Qed.

Lemma command_add user_input args contacts :
  parse_input user_input = (u "add", args) →
  command user_input contacts = print_reply (add_contact (args, contacts)).
Proof.
  intros Hparse. unfold command. rewrite Hparse.
  rewrite bool_decide_eq_false_2 by by_decision.
  rewrite bool_decide_eq_false_2 by by_decision.
  rewrite bool_decide_eq_false_2 by by_decision.
  by rewrite bool_decide_eq_true_2 by by_decision.
Qed.

Lemma command_change user_input args contacts :
  parse_input user_input = (u "change", args) →
  command user_input contacts = print_reply (change_contact (args, contacts)).
Proof.
  intros Hparse. unfold command. rewrite Hparse.
  do 4 rewrite bool_decide_eq_false_2 by by_decision.
  by rewrite bool_decide_eq_true_2 by by_decision.
Qed.

Lemma command_phone user_input args contacts :
  parse_input user_input = (u "phone", args) →
  command user_input contacts = print_reply (show_phone (args, contacts)).
Proof.
  intros Hparse. unfold command. rewrite Hparse.
  do 5 rewrite bool_decide_eq_false_2 by by_decision.
  by rewrite bool_decide_eq_true_2 by by_decision.
Qed.

(** A line whose first word is ASCII. *)
Lemma parse_input_ascii user_input w cmd args :
  split (strip user_input) = w :: args →
  forallb is_ascii w = true →
  ascii_lower <$> w = cmd →
  parse_input user_input = (cmd, args).
Proof.
  intros Hsplit Hw <-. unfold parse_input. by rewrite Hsplit, lower_ascii.
Qed.

Lemma add_contact_returns args contacts :
  ∃ contacts' reply, add_contact (args, contacts) = (contacts', Return reply).
Proof.
  destruct (decide (length args = 2%nat)) as [Hlen|Hlen].
  - destruct args as [|name [|phone [|? ?]]]; try done.
    eexists _, _. apply add_contact_two.
  - eexists _, _. by apply add_contact_arity.
Qed.

Lemma change_contact_returns args contacts :
  ∃ contacts' reply, change_contact (args, contacts) = (contacts', Return reply).
Proof.
  destruct (decide (length args = 2%nat)) as [Hlen|Hlen].
  - destruct args as [|name [|phone [|? ?]]]; try done.
    rewrite change_contact_two. destruct (contains contacts name); by eexists _, _.
  - eexists _, _. by apply change_contact_arity.
Qed.

Lemma show_phone_returns args contacts :
  ∃ reply, show_phone (args, contacts) = (contacts, Return reply).
Proof.
  destruct (decide (length args = 1%nat)) as [Hlen|Hlen].
  - destruct args as [|name [|? ?]]; try done.
    eexists. apply show_phone_one.
  - eexists. by apply show_phone_arity.
Qed.

(** C8. The four handlers always return a reply and never raise. In
    particular, for a contact book without [bob], [change] of [bob]
    returns the not-found message and leaves the book as it is, and the
    line [change bob 999] prints that message and the loop goes on; [add]
    with one argument returns the usage message, and so does the line
    [add alice]. *)
Theorem handlers_reply (contacts : dict) :
  (∀ args, ∃ contacts' reply,
     add_contact (args, contacts) = (contacts', Return reply))
  ∧ (∀ args, ∃ contacts' reply,
       change_contact (args, contacts) = (contacts', Return reply))
  ∧ (∀ args, ∃ reply, show_phone (args, contacts) = (contacts, Return reply))
  ∧ (∃ reply, show_all contacts = (contacts, Return reply))
  ∧ (contains contacts (u "bob") = false →
       (∀ phone, change_contact ([u "bob"; phone], contacts)
                 = (contacts, Return not_found_reply))
       ∧ answers (u "change bob 999") contacts not_found_reply contacts)
  ∧ (∀ arg, add_contact ([arg], contacts) = (contacts, Return usage_reply))
  ∧ answers (u "add alice") contacts usage_reply contacts.
Proof.
  split; [intros args; apply add_contact_returns|].
  split; [intros args; apply change_contact_returns|].
  split; [intros args; apply show_phone_returns|].
  split; [apply show_all_returns|].
  split; [|split].
  - intros Hbob. split.
    + intros phone. by rewrite change_contact_two, Hbob.
    + unfold answers.
      rewrite (command_change _ [u "bob"; u "999"])
        by (apply (parse_input_ascii _ (u "change")); vm_compute; reflexivity).
      by rewrite change_contact_two, Hbob.
  - intros arg. by apply add_contact_arity.
  - unfold answers.
    rewrite (command_add _ [u "alice"])
      by (apply (parse_input_ascii _ (u "add")); vm_compute; reflexivity).
    by rewrite add_contact_arity.
Qed.

Lemma answers_add_Alice contacts :
  answers (u "add Alice 123") contacts (u "Contact added.")
    (setitem contacts (u "Alice") (u "123")).
Proof.
  unfold answers.
  rewrite (command_add _ [u "Alice"; u "123"])
    by (apply (parse_input_ascii _ (u "add")); vm_compute; reflexivity).
  by rewrite add_contact_two.
Qed.

Lemma answers_phone name contacts user_input :
  split (strip user_input) = [u "phone"; name] →
  answers user_input contacts
    (default not_found_reply (getitem contacts name)) contacts.
Proof.
  intros Hsplit. unfold answers.
  rewrite (command_phone _ [name])
    by (apply (parse_input_ascii _ (u "phone")); [done|vm_compute; reflexivity..]).
  by rewrite show_phone_one.
Qed.

(** What [phone alice] is answered after [add Alice 123]: the phone of
    [alice] if the book had one, the not-found message otherwise. *)
Lemma phone_alice_after_add_Alice_reply contacts reply :
  phone_alice_after_add_Alice contacts reply
  ↔ reply = default not_found_reply (getitem contacts (u "alice")).
Proof.
  assert (getitem (setitem contacts (u "Alice") (u "123")) (u "alice")
          = getitem contacts (u "alice")) as Hget.
  { rewrite getitem_setitem. by rewrite decide_False by by_decision. }
  pose proof (answers_add_Alice contacts) as Hadd.
  pose proof (answers_phone (u "alice")
                (setitem contacts (u "Alice") (u "123")) (u "phone alice")) as Hphone.
  rewrite Hget in Hphone. specialize (Hphone ltac:(vm_compute; reflexivity)).
  unfold phone_alice_after_add_Alice, answers in *. split.
  - intros (contacts' & Hadd' & Hphone').
    rewrite Hadd in Hadd'. injection Hadd' as <-.
    rewrite Hphone in Hphone'. by injection Hphone' as <-.
  - intros ->. by eexists.
Qed.

(** A line is looked at through [parse_input] only. *)
Lemma command_parse_input user_input user_input' contacts :
  parse_input user_input = parse_input user_input' →
  command user_input contacts = command user_input' contacts.
Proof. intros Hparse. unfold command. by rewrite Hparse. Qed.

Lemma command_close_exit user_input cmd args contacts :
  parse_input user_input = (cmd, args) →
  cmd ∈ [u "close"; u "exit"] →
  command user_input contacts = ([Stdout (u "Good bye!")], Return None).
Proof.
  intros Hparse Hcmd. unfold command. rewrite Hparse.
  by rewrite bool_decide_eq_true_2 by done.
Qed.

Lemma command_hello user_input args contacts :
  parse_input user_input = (u "hello", args) →
  command user_input contacts
  = ([Stdout (u "How can I help you?")], Return (Some contacts)).
Proof.
  intros Hparse. unfold command. rewrite Hparse.
  do 2 rewrite bool_decide_eq_false_2 by by_decision.
  by rewrite bool_decide_eq_true_2 by by_decision.
Qed.

Lemma command_all user_input args contacts :
  parse_input user_input = (u "all", args) →
  command user_input contacts = print_reply (show_all contacts).
Proof.
  intros Hparse. unfold command. rewrite Hparse.
  do 6 rewrite bool_decide_eq_false_2 by by_decision.
  by rewrite bool_decide_eq_true_2 by by_decision.
Qed.

(** C9, as amended. The command word is matched whatever its case. For
    every line that starts with a word, [parse_input] gives the word in
    lower case and the arguments as they are written; so two lines whose
    first words have the same lower case, followed by the same text, are
    parsed alike and do the same, and a word whose lower case is one of
    the command words runs that command, whatever the case it is written
    in. In particular [ADD] and [add] are parsed to the command [add] with
    the same arguments and run the same handler. Names are matched as they
    are written: after [add] of a name, [phone] with another name that
    the contact book does not have, such as the name in another case, is
    answered with the not-found message; after [add Alice 123],
    [phone Alice] is answered [123], and [phone alice] is answered with the
    not-found message when the contact book has no [alice]. *)
Theorem command_words_fold_case_names_do_not (contacts : dict) :
  (∀ w tail, w ≠ [] → nospace w → arguments tail →
     parse_input (w ++ tail) = (lower w, split (rstrip tail)))
  ∧ (∀ w w' tail, w ≠ [] → nospace w → w' ≠ [] → nospace w' →
       arguments tail → lower w = lower w' →
       parse_input (w ++ tail) = parse_input (w' ++ tail)
       ∧ command (w ++ tail) contacts = command (w' ++ tail) contacts)
  ∧ (∀ w tail, w ≠ [] → nospace w → arguments tail →
       (lower w ∈ [u "close"; u "exit"] →
          command (w ++ tail) contacts
          = ([Stdout (u "Good bye!")], Return None))
       ∧ (lower w = u "hello" →
            command (w ++ tail) contacts
            = ([Stdout (u "How can I help you?")], Return (Some contacts)))
       ∧ (lower w = u "add" →
            command (w ++ tail) contacts
            = print_reply (add_contact (split (rstrip tail), contacts)))
       ∧ (lower w = u "change" →
            command (w ++ tail) contacts
            = print_reply (change_contact (split (rstrip tail), contacts)))
       ∧ (lower w = u "phone" →
            command (w ++ tail) contacts
            = print_reply (show_phone (split (rstrip tail), contacts)))
       ∧ (lower w = u "all" →
            command (w ++ tail) contacts = print_reply (show_all contacts)))
  ∧ (∀ tail, arguments tail →
       parse_input (u "ADD" ++ tail) = (u "add", split (rstrip tail))
       ∧ parse_input (u "add" ++ tail) = (u "add", split (rstrip tail))
       ∧ command (u "ADD" ++ tail) contacts
         = print_reply (add_contact (split (rstrip tail), contacts))
       ∧ command (u "add" ++ tail) contacts
         = print_reply (add_contact (split (rstrip tail), contacts)))
  ∧ (∀ name phone name', name' ≠ name → contains contacts name' = false →
       ∃ contacts',
         add_contact ([name; phone], contacts)
         = (contacts', Return (u "Contact added."))
         ∧ show_phone ([name], contacts') = (contacts', Return phone)
         ∧ show_phone ([name'], contacts') = (contacts', Return not_found_reply))
  ∧ (∃ contacts',
       answers (u "add Alice 123") contacts (u "Contact added.") contacts'
       ∧ answers (u "phone Alice") contacts' (u "123") contacts')
  ∧ (contains contacts (u "alice") = false →
       phone_alice_after_add_Alice contacts not_found_reply).
Proof.
  split; [|split; [|split; [|split; [|split; [|split]]]]].
  - intros w tail Hne Hw Htail. by apply parse_input_word.
  - intros w w' tail Hne Hw Hne' Hw' Htail Hlower.
    assert (parse_input (w ++ tail) = parse_input (w' ++ tail)) as Hparse.
    { rewrite !parse_input_word by done. by rewrite Hlower. }
    split; [done|]. by apply command_parse_input.
  - intros w tail Hne Hw Htail.
    pose proof (parse_input_word w tail Hne Hw Htail) as Hparse.
    split; [|split; [|split; [|split; [|split]]]].
    + intros Hword. by eapply command_close_exit.
    + intros Hword. rewrite Hword in Hparse. by eapply command_hello.
    + intros Hword. rewrite Hword in Hparse. by apply command_add.
    + intros Hword. rewrite Hword in Hparse. by apply command_change.
    + intros Hword. rewrite Hword in Hparse. by apply command_phone.
    + intros Hword. rewrite Hword in Hparse. by eapply command_all.
  - intros tail Htail.
    assert (parse_input (u "ADD" ++ tail) = (u "add", split (rstrip tail))) as HADD.
    { rewrite parse_input_word by (done || by_decision).
      by rewrite lower_ascii by (vm_compute; reflexivity). }
    assert (parse_input (u "add" ++ tail) = (u "add", split (rstrip tail))) as Hadd.
    { rewrite parse_input_word by (done || by_decision).
      by rewrite lower_ascii by (vm_compute; reflexivity). }
    split; [done|]. split; [done|]. split; by apply command_add.
  - intros name phone name' Hname Hin. exists (setitem contacts name phone).
    split; [apply add_contact_two|]. split.
    + rewrite show_phone_one, getitem_setitem. by rewrite decide_True.
    + rewrite show_phone_one, getitem_setitem.
      rewrite decide_False by done. apply contains_false in Hin.
      by rewrite Hin.
  - exists (setitem contacts (u "Alice") (u "123")).
    split; [apply answers_add_Alice|].
    pose proof (answers_phone (u "Alice")
                  (setitem contacts (u "Alice") (u "123")) (u "phone Alice")) as Hphone.
    rewrite getitem_setitem, decide_True in Hphone by done.
    apply Hphone. vm_compute. reflexivity.
  - intros Halice. apply phone_alice_after_add_Alice_reply.
    apply contains_false in Halice. by rewrite Halice.
Qed.
End Handlers.

End Contacts_facts.

(** ** Instances of the statements on sample data

    They are run with [ascii_unicode] for the Unicode tables. *)

Module Examples.
Import Py Py_facts Task_three Log_facts.

(** C1 on a line with runs of several spaces and a line end. *)
Lemma parse_log_line_well_formed_witness :
  parse_log_line (H := ascii_unicode)
    (u "  2024-01-01 10:00:00   INFO Disk  usage   high " ++ [0x0A])
  = Return {| date := u "2024-01-01"; time := u "10:00:00";
              level := u "INFO"; message := u "Disk  usage   high" |}.
Proof.
  refine (parse_log_line_well_formed (H := ascii_unicode)
            (u "2024-01-01") (u "10:00:00") (u "INFO") (u "Disk  usage   high")
            (u "  ") (u " ") (u "   ") (u " ") (u " " ++ [0x0A]) _ _ _ _ _ _ _ _ _).
  - by_decision.
  - by_decision.
  - by_decision.
  - split; eexists; (split; [reflexivity|reflexivity]).
  - by_decision.
  - by_decision.
  - by_decision.
  - by_decision.
  - by_decision.
Defined.

(** C3 on the sample log file: three records and one warning. *)
Lemma load_logs_readable_witness :
  readable sample_fs (u "app.log") sample_lines
  ∧ load_logs (H := ascii_unicode) sample_fs (u "app.log")
    = (warnings_of (H := ascii_unicode) sample_lines,
       Return (records_of (H := ascii_unicode) sample_lines))
  ∧ length (records_of (H := ascii_unicode) sample_lines) = 3%nat
  ∧ length (warnings_of (H := ascii_unicode) sample_lines) = 1%nat.
Proof.
  assert (readable sample_fs (u "app.log") sample_lines) as Hfs
    by (vm_compute; reflexivity).
  destruct (load_logs_readable (H := ascii_unicode)
              sample_fs (u "app.log") sample_lines Hfs)
    as (Hload & _ & _ & Hcount).
  destruct Hcount as [Hrecords Hwarnings];
    [vm_compute; reflexivity|vm_compute; reflexivity|].
  by repeat split.
Defined.

(** C4 on the sample file that may not be read. *)
Lemma load_logs_unavailable_witness :
  ∃ out,
    load_logs (H := ascii_unicode) sample_fs (u "secret.log")
    = (out,
       Raise (Exc OSError
                (u "Error reading file 'secret.log': [Errno 13] Permission denied: 'secret.log'")))
    ∧ out = [].
Proof.
  destruct (load_logs_unavailable (H := ascii_unicode) sample_fs (u "secret.log")
              (Exc PermissionError
                 (u "[Errno 13] Permission denied: 'secret.log'")))
    as (out & Hload & Hout).
  - left. vm_compute. reflexivity.
  - vm_compute. reflexivity.
  - exists out. split; [|apply Hout; vm_compute; reflexivity].
    rewrite Hload. vm_compute. reflexivity.
Defined.

(** C5 on the records of the sample log file. *)
Lemma count_logs_by_level_total_witness :
  ∃ counts,
    count_logs_by_level (records_of (H := ascii_unicode) sample_lines)
    = Return counts
    ∧ counts !! u "INFO" = Some 1%Z ∧ counts !! u "ERROR" = Some 1%Z
    ∧ counts !! u "DEBUG" = Some 0%Z ∧ counts !! u "WARNING" = Some 1%Z.
Proof.
  destruct (count_logs_by_level_total
              (records_of (H := ascii_unicode) sample_lines))
    as (counts & Hcounts & _ & Hlookup & _).
  - by_decision.
  - exists counts. split; [done|].
    rewrite !Hlookup by by_decision. vm_compute. by repeat split.
Defined.

(** C7 on the sample file system: a level that no record has, a file
    that is not UTF-8, and a level that is not supported. *)
Lemma main_exit_code_witness :
  (∃ out, Task_three.main (H := ascii_unicode) sample_fs
            [u "main.py"; u "app.log"; u "debug"] = (out, Return 0%Z))
  ∧ (∃ out msg, Task_three.main (H := ascii_unicode) sample_fs
                  [u "main.py"; u "binary.log"]
                = (out ++ [Stderr (u "Error: " ++ msg)], Return 1%Z))
  ∧ (∃ out, Task_three.main (H := ascii_unicode) sample_fs
              [u "main.py"; u "app.log"; u "critical"]
            = (out ++ [Stderr (u "Error: "
                                 ++ exc_arg (unsupported_level_error
                                               (H := ascii_unicode)
                                               (u "critical")))],
               Return 1%Z)).
Proof.
  split; [|split].
  - destruct (main_exit_code (H := ascii_unicode) sample_fs
                [u "main.py"; u "app.log"; u "debug"]) as (_ & Hok & _).
    apply (Hok (u "main.py") (u "app.log") [u "debug"] sample_lines).
    + reflexivity.
    + vm_compute. reflexivity.
    + intros lvl [= <-]. unfold supported. by_decision.
  - destruct (main_exit_code (H := ascii_unicode) sample_fs
                [u "main.py"; u "binary.log"]) as (_ & _ & Hfail & _).
    apply (Hfail (u "main.py") (u "binary.log") []
             (Exc UnicodeDecodeError
                (u "'utf-8' codec can't decode byte 0xff in position 0: invalid start byte"))).
    + reflexivity.
    + right. exists []. vm_compute. reflexivity.
    + vm_compute. reflexivity.
  - destruct (main_exit_code (H := ascii_unicode) sample_fs
                [u "main.py"; u "app.log"; u "critical"]) as (_ & _ & _ & Hlvl).
    apply (Hlvl (u "main.py") (u "app.log") (u "critical") [] sample_lines).
    + reflexivity.
    + vm_compute. reflexivity.
    + unfold supported. by_decision.
Defined.

(** The scenario of the specification: two records, one warning for line
    2, and the counts INFO=1, ERROR=1, DEBUG=0, WARNING=0. *)
Example load_logs_scenario :
  let fs : filesystem := λ _,
    Opened [u "2024-01-01 10:00:00 INFO Started" ++ [0x0A];
            u "garbage line" ++ [0x0A];
            u "2024-01-01 10:05:00 ERROR Failed to connect" ++ [0x0A]] None in
  load_logs (H := ascii_unicode) fs (u "app.log")
  = ([Stderr (u "Warning: line 2: Invalid log line format: 'garbage line"
                ++ [0x0A] ++ u "'")],
     Return [{| date := u "2024-01-01"; time := u "10:00:00";
                level := u "INFO"; message := u "Started" |};
             {| date := u "2024-01-01"; time := u "10:05:00";
                level := u "ERROR"; message := u "Failed to connect" |}]).
Proof. vm_compute. reflexivity. Qed.

Example display_log_counts_scenario :
  display_log_counts
    (<[u "INFO" := 1%Z]> (<[u "ERROR" := 1%Z]>
       (<[u "DEBUG" := 0%Z]> (<[u "WARNING" := 0%Z]> ∅))))
  = ([Stdout (u "Рівень логування | Кількість");
      Stdout (u "-----------------+----------");
      Stdout (u "INFO             |         1");
      Stdout (u "ERROR            |         1");
      Stdout (u "DEBUG            |         0");
      Stdout (u "WARNING          |         0")],
     Return ()).
Proof. vm_compute. reflexivity. Qed.

End Examples.

Module Contacts_examples.
Import Py Py_facts Task_four Contacts_facts.

(** C8 on a contact book without [bob]. *)
Lemma handlers_reply_witness :
  change_contact (H := ascii_unicode)
    ([u "bob"; u "999"], [(u "alice", u "123")])
  = ([(u "alice", u "123")], Return not_found_reply)
  ∧ answers (H := ascii_unicode) (u "change bob 999") [(u "alice", u "123")]
      not_found_reply [(u "alice", u "123")].
Proof.
  destruct (handlers_reply (H := ascii_unicode) [(u "alice", u "123")])
    as (_ & _ & _ & _ & Hbob & _).
  destruct Hbob as [Hchange Hline]; [vm_compute; reflexivity|].
  split; [apply Hchange|apply Hline].
Defined.

(** C9, as amended, on a contact book without [alice], with the command
    words [PhOnE] and [eXiT]. *)
Lemma command_words_fold_case_names_do_not_witness :
  parse_input (H := ascii_unicode) (u "PhOnE" ++ u " Alice")
  = (lower (Unicode := ascii_unicode) (u "PhOnE"), split (rstrip (u " Alice")))
  ∧ command (H := ascii_unicode) (u "eXiT" ++ u " now") [(u "bob", u "555")]
    = ([Stdout (u "Good bye!")], Return None)
  ∧ phone_alice_after_add_Alice (H := ascii_unicode)
      [(u "bob", u "555")] not_found_reply.
Proof.
  destruct (command_words_fold_case_names_do_not (H := ascii_unicode)
              [(u "bob", u "555")])
    as (Hparse & _ & Hcommand & _ & _ & _ & Halice).
  split; [|split].
  - apply Hparse; [done|by_decision|right; by eexists _, _].
  - apply (Hcommand (u "eXiT") (u " now"));
      [done|by_decision|right; by eexists _, _|by_decision].
  - apply Halice. vm_compute. reflexivity.
Defined.

(** With [alice] already in the contact book, [phone alice] after
    [add Alice 123] is answered with the phone of [alice]. *)
Lemma phone_alice_found `{Unicode} contacts phone :
  getitem contacts (u "alice") = Some phone →
  phone_alice_after_add_Alice contacts phone.
Proof.
  intros Halice. apply phone_alice_after_add_Alice_reply. by rewrite Halice.
Qed.

(** C9, as it is stated, fails: with [alice] in the contact book under
    the phone [123], [phone alice] after [add Alice 123] is answered
    [123], whatever the Unicode tables are, and not with the not-found
    message. *)
Lemma phone_alice_found_counterexample :
  ¬ ∃ U : Unicode,
      phone_alice_after_add_Alice (H := U) [(u "alice", u "123")] not_found_reply.
Proof.
  intros [U HU]. apply phone_alice_after_add_Alice_reply in HU.
  vm_compute in HU. discriminate HU.
Qed.

(** A session, from the greeting to the farewell. *)
Example session :
  Task_four.main (H := ascii_unicode)
    [u "hello"; u "ADD Alice 123"; u "phone alice"; u "phone Alice";
     u "add Bob"; u "change bob 999"; u "add Bob 5"; u "all"; u "";
     u "what"; u "EXIT"; u "hello"]
  = ([Stdout (u "Welcome to the assistant bot!");
      Prompt (u "Enter a command: "); Stdout (u "How can I help you?");
      Prompt (u "Enter a command: "); Stdout (u "Contact added.");
      Prompt (u "Enter a command: "); Stdout (u "'Contact not found.'");
      Prompt (u "Enter a command: "); Stdout (u "123");
      Prompt (u "Enter a command: "); Stdout (u "Give me name and phone please.");
      Prompt (u "Enter a command: "); Stdout (u "'Contact not found.'");
      Prompt (u "Enter a command: "); Stdout (u "Contact added.");
      Prompt (u "Enter a command: ");
      Stdout (u "Alice: 123" ++ [0x0A] ++ u "Bob: 5");
      Prompt (u "Enter a command: ");
      Prompt (u "Enter a command: "); Stdout (u "Invalid command.");
      Prompt (u "Enter a command: "); Stdout (u "Good bye!")],
     Return ()).
Proof. vm_compute. reflexivity. Qed.

End Contacts_examples.

(** * More properties *)

(** ** More facts about [strip] and [split] *)

Module Py_more.
Import Py Py_facts.

Lemma strip_allspace ws : allspace ws → strip ws = [].
Proof. intros Hws. unfold strip. by rewrite lstrip_allspace. Qed.

(** Whitespace around a string does not change what [strip] gives. *)
Lemma strip_pad ws0 s ws1 :
  allspace ws0 → allspace ws1 → strip (ws0 ++ s ++ ws1) = strip s.
Proof.
  intros Hws0 Hws1. unfold strip.
  rewrite lstrip_allspace_app, lstrip_app by done.
  destruct (lstrip s) as [|c r].
  - by rewrite lstrip_allspace.
  - by rewrite rstrip_app_allspace.
Qed.

Lemma strip_trimmed_id s : trimmed s → strip s = s.
Proof.
  intros Hs. pose proof (strip_trimmed [] s [] (Forall_nil_2 _) Hs (Forall_nil_2 _)) as Heq.
  cbn [app] in Heq. by rewrite app_nil_r in Heq.
Qed.

Lemma strip_head s c : head (strip s) = Some c → isspace c = false.
Proof.
  unfold strip. destruct (lstrip s) as [|d r] eqn:Hs; [done|].
  pose proof (lstrip_head _ _ _ Hs) as Hd.
  change (d :: r) with ([d] ++ r). rewrite rstrip_app.
  destruct (rstrip r).
  - replace (rstrip [d]) with [d] by (symmetry; apply (rstrip_snoc [] d Hd)).
    by intros [= <-].
  - by intros [= <-].
Qed.

Lemma strip_last s c : last (strip s) = Some c → isspace c = false.
Proof.
  unfold strip, rstrip. rewrite last_reverse.
  destruct (lstrip (reverse (lstrip s))) as [|d r] eqn:Hs; [done|].
  intros [= <-]. by eapply lstrip_head.
Qed.

Lemma lstrip_suffix s : lstrip s `suffix_of` s.
Proof.
  induction s as [|c s IH]; [done|].
  cbn [lstrip]. destruct (isspace c); [by apply suffix_cons_r|done].
Qed.

Lemma token_suffix s : (token s).2 `suffix_of` s.
Proof. exists (token s).1. by rewrite token_app. Qed.

Lemma token_first c r :
  isspace c = false → (token (c :: r)).1 ≠ [] ∧ nospace (token (c :: r)).1.
Proof.
  intros Hc. split; [|apply token_nospace].
  by rewrite token_cons.
Qed.

(** The items before the last possible one are non-empty and free of
    whitespace. *)
Lemma split_whitespace_item n s i t :
  split_whitespace n s !! i = Some t → (i < n)%nat → t ≠ [] ∧ nospace t.
Proof.
  revert s i. induction n as [|n IH]; intros s i Ht Hi; [lia|].
  rewrite split_whitespace_S in Ht.
  destruct (lstrip s) as [|c r] eqn:Hs; [done|].
  pose proof (token_first c r (lstrip_head _ _ _ Hs)) as Hfirst.
  destruct (token (c :: r)) as [t0 rest]. destruct i as [|i].
  - injection Ht as <-. exact Hfirst.
  - apply (IH rest i); [done|lia].
Qed.

(** The item after [n] splits is the rest of the string: it starts with a
    code point that is not whitespace and runs to the end of the string. *)
Lemma split_whitespace_remainder n s m :
  split_whitespace n s !! n = Some m →
  (∃ c, head m = Some c ∧ isspace c = false) ∧ m `suffix_of` s.
Proof.
  revert s. induction n as [|n IH]; intros s Hm.
  - cbn [split_whitespace] in Hm.
    destruct (lstrip s) as [|c r] eqn:Hs; [done|]. injection Hm as <-. split.
    + exists c. split; [done|]. by eapply lstrip_head.
    + rewrite <- Hs. apply lstrip_suffix.
  - rewrite split_whitespace_S in Hm.
    destruct (lstrip s) as [|c r] eqn:Hs; [done|].
    pose proof (token_suffix (c :: r)) as Hrest.
    destruct (token (c :: r)) as [t0 rest]. cbn [lookup list_lookup] in Hm.
    destruct (IH rest Hm) as [Hhead Hsuffix]. split; [done|].
    etrans; [exact Hsuffix|]. etrans; [exact Hrest|].
    rewrite <- Hs. apply lstrip_suffix.
Qed.

(** Each item uses up at least one code point. *)
Lemma split_whitespace_length_le n s :
  (length (split_whitespace n s) ≤ length s)%nat.
Proof.
  revert s. induction n as [|n IH]; intros s.
  - cbn [split_whitespace]. pose proof (lstrip_length s) as Hl.
    destruct (lstrip s); cbn [length] in *; lia.
  - rewrite split_whitespace_S. pose proof (lstrip_length s) as Hl.
    destruct (lstrip s) as [|c r] eqn:Hs; [cbn [length]; lia|].
    pose proof (token_rest_length c r (lstrip_head _ _ _ Hs)) as Hr.
    destruct (token (c :: r)) as [t0 rest]. specialize (IH rest).
    cbn [snd length] in *. lia.
Qed.

(** The items of [split()] are non-empty and free of whitespace. *)
Lemma split_items s : Forall (λ t, t ≠ [] ∧ nospace t) (split s).
Proof.
  apply Forall_lookup. intros i t Ht.
  apply (split_whitespace_item (length s) s i t Ht).
  apply lookup_lt_Some in Ht.
  pose proof (split_whitespace_length_le (length s) s) as Hle.
  unfold split, str in *. lia.
Qed.

Lemma split_nil : split [] = [].
Proof. done. Qed.

Lemma lstrip_decompose s : ∃ ws, allspace ws ∧ s = ws ++ lstrip s.
Proof.
  induction s as [|c s (ws & Hws & IH)]; [exists []; by split; [constructor|]|].
  cbn [lstrip]. destruct (isspace c) eqn:Hc.
  - exists (c :: ws). split; [by constructor|]. cbn [app]. by f_equal.
  - exists []. by split; [constructor|].
Qed.

Lemma rstrip_decompose s : ∃ ws, allspace ws ∧ s = rstrip s ++ ws.
Proof.
  destruct (lstrip_decompose (reverse s)) as (ws & Hws & Hs).
  exists (reverse ws). split; [by apply allspace_reverse|].
  unfold rstrip. rewrite <- reverse_app, <- Hs. by rewrite reverse_involutive.
Qed.

Lemma token_app_allspace s ws :
  allspace ws → token (s ++ ws) = ((token s).1, (token s).2 ++ ws).
Proof.
  intros Hws. induction s as [|c s IH]; cbn [app].
  - destruct Hws as [|d ws Hd _]; [done|]. cbn [token]. by rewrite Hd.
  - cbn [token]. destruct (isspace c); [done|]. rewrite IH.
    by destruct (token s).
Qed.

Lemma split_whitespace_app_allspace n s ws :
  allspace ws → (length s ≤ n)%nat →
  split_whitespace n (s ++ ws) = split_whitespace n s.
Proof.
  intros Hws. revert s. induction n as [|n IH]; intros s Hn.
  - destruct s; [|cbn [length] in Hn; lia]. cbn [app split_whitespace].
    by rewrite lstrip_allspace.
  - rewrite !split_whitespace_S, lstrip_app. pose proof (lstrip_length s) as Hl.
    destruct (lstrip s) as [|c r] eqn:Hs; [by rewrite lstrip_allspace|].
    pose proof (token_rest_length c r (lstrip_head _ _ _ Hs)) as Hr.
    cbn [app]. change (c :: r ++ ws) with ((c :: r) ++ ws).
    rewrite token_app_allspace by done.
    destruct (token (c :: r)) as [t rest]. cbn [fst snd] in *.
    f_equal. apply IH. cbn [length] in *. lia.
Qed.

(** Whitespace around the text does not change the items of [split()]. *)
Lemma split_pad ws0 s ws1 :
  allspace ws0 → allspace ws1 → split (ws0 ++ s ++ ws1) = split s.
Proof.
  intros Hws0 Hws1. unfold split.
  rewrite split_whitespace_allspace_app by done.
  rewrite split_whitespace_app_allspace by (done || rewrite !length_app; lia).
  apply split_whitespace_saturates; rewrite ?length_app; lia.
Qed.

(** [s.strip().split()] is [s.split()]. *)
Lemma split_strip s : split (strip s) = split s.
Proof.
  destruct (lstrip_decompose s) as (ws0 & Hws0 & Hs).
  destruct (rstrip_decompose (lstrip s)) as (ws1 & Hws1 & Hl).
  rewrite Hs at 2. rewrite Hl. by rewrite split_pad.
Qed.

Lemma split_allspace ws : allspace ws → split ws = [].
Proof.
  intros Hws. unfold split. destruct (length ws); cbn [split_whitespace];
    by rewrite lstrip_allspace.
Qed.

Lemma join_cons sep x y items :
  join sep (x :: y :: items) = x ++ sep ++ join sep (y :: items).
Proof. done. Qed.

Lemma join_snoc sep items x :
  items ≠ [] → join sep (items ++ [x]) = join sep items ++ sep ++ x.
Proof.
  induction items as [|y items IH]; [done|]. intros _.
  destruct items as [|z items]; [done|].
  change ((y :: z :: items) ++ [x]) with (y :: (z :: items) ++ [x]).
  cbn [app]. rewrite (join_cons sep y z (items ++ [x])).
  change (z :: items ++ [x]) with ((z :: items) ++ [x]).
  rewrite IH by done. rewrite join_cons. by rewrite <- !app_assoc.
Qed.

(** Words joined by single spaces split into the same words. *)
Lemma split_join items :
  Forall (λ t, t ≠ [] ∧ nospace t) items → split (join [0x20] items) = items.
Proof.
  induction 1 as [|x items [Hne Hx] Hitems IH]; [done|].
  destruct items as [|y items].
  - cbn [join]. rewrite <- (app_nil_r x) at 1.
    rewrite split_word by (done || by left). by rewrite split_nil.
  - rewrite join_cons.
    rewrite split_word; [|done|done|right; by eexists _, _].
    f_equal. rewrite <- IH.
    pose proof (split_pad [0x20] (join [0x20] (y :: items)) []) as Hpad.
    rewrite app_nil_r in Hpad. apply Hpad; [by repeat constructor|constructor].
Qed.

End Py_more.

(** ** More about the log analyser *)

Module Log_more.
Import Py Py_facts Py_more Trace Task_three Log_facts.

Section Parser.
Context `{Unicode}.

(** The four items of a stripped line that has four. *)
Lemma parts_well_formed line d t l m :
  split_max 3 (strip line) = [d; t; l; m] →
  field d ∧ field t ∧ field l ∧ trimmed m ∧ m `suffix_of` strip line.
Proof.
  intros Hparts. unfold split_max in Hparts.
  assert (∀ i x, [d; t; l; m] !! i = Some x → (i < 3)%nat → field x) as Hfield.
  { intros i x Hx Hi. rewrite <- Hparts in Hx.
    by apply (split_whitespace_item 3 (strip line) i x). }
  destruct (split_whitespace_remainder 3 (strip line) m) as [Hhead Hsuffix].
  { by rewrite Hparts. }
  split; [by apply (Hfield 0%nat); [|lia]|].
  split; [by apply (Hfield 1%nat); [|lia]|].
  split; [by apply (Hfield 2%nat); [|lia]|].
  split; [|done]. split; [done|].
  destruct Hhead as (c & Hc & _). destruct Hsuffix as [k Hk].
  destruct (last m) as [c'|] eqn:Hlast.
  - exists c'. split; [done|]. apply (strip_last line).
    by rewrite Hk, last_app, Hlast.
  - apply last_None in Hlast. by subst m.
Qed.

Lemma parse_log_line_well_formed_record line rec :
  parse_log_line line = Return rec → well_formed rec.
Proof.
  intros Hrec.
  destruct (parse_log_line_cases line)
    as [[_ Hr]|[(d & t & l & m & _ & _ & Hr)|(d & t & l & m & Hp & Hl & Hr)]];
    rewrite Hr in Hrec; simplify_eq.
  destruct (parts_well_formed line d t l m Hp) as (Hd & Ht & _ & Hm & _).
  unfold well_formed. cbn [date time level message]. auto.
Qed.

(** The first item of a split is the start of the string, once the
    whitespace before it is gone. *)
Lemma split_whitespace_first n s d :
  split_whitespace (S n) s !! 0%nat = Some d → d `prefix_of` lstrip s.
Proof.
  rewrite split_whitespace_S. destruct (lstrip s) as [|c r]; [done|].
  pose proof (token_app (c :: r)) as Happ.
  destruct (token (c :: r)) as [t0 rest]. intros [= <-].
  exists rest. by rewrite <- Happ.
Qed.

Lemma lstrip_strip s : lstrip (strip s) = strip s.
Proof.
  destruct (strip s) as [|c r] eqn:Hs; [done|].
  apply lstrip_cons. apply (strip_head s). by rewrite Hs.
Qed.

Lemma gap_space : gap (u " ").
Proof. by_decision. Qed.

Lemma parse_log_line_of_log_line rec :
  well_formed rec → parse_log_line (log_line rec) = Return rec.
Proof.
  intros (Hd & Ht & Hl & Hm). destruct rec as [d t l m]. cbn [date time level message] in *.
  pose proof (level_field l Hl) as Hlf. pose proof gap_space as Hgap.
  unfold parse_log_line, log_line. cbn [date time level message].
  rewrite strip_trimmed_id by (by apply trimmed_line).
  rewrite split_well_formed by done. cbn [length].
  rewrite bool_decide_eq_false_2 by lia.
  by rewrite bool_decide_eq_false_2 by (by intros Hn).
Qed.

(** X1. A record that [parse_log_line] returns has a date, a time and a
    level that are non-empty and free of whitespace, a level of
    [LOG_LEVELS], and a message that is not empty and neither starts nor
    ends with whitespace; the date is the start and the message is the end
    of the stripped line. *)
Theorem parse_log_line_returns_well_formed (line : str) (rec : LogRecord) :
  parse_log_line line = Return rec →
  well_formed rec
  ∧ date rec `prefix_of` strip line
  ∧ message rec `suffix_of` strip line.
Proof.
  intros Hrec.
  destruct (parse_log_line_cases line)
    as [[_ Hr]|[(d & t & l & m & _ & _ & Hr)|(d & t & l & m & Hp & Hl & Hr)]];
    rewrite Hr in Hrec; simplify_eq.
  destruct (parts_well_formed line d t l m Hp) as (Hd & Ht & _ & Hm & Hsuffix).
  cbn [date message]. split; [|split; [|done]].
  - unfold well_formed. cbn [date time level message]. auto.
  - rewrite <- lstrip_strip. apply (split_whitespace_first 2).
    unfold split_max in Hp. by rewrite Hp.
Qed.

(** X2. Round trip: a record is the parse of its own line in the expected
    format exactly when it is well formed; so what the parser returns is
    parsed again to itself. *)
Theorem parse_log_line_round_trip (rec : LogRecord) :
  (parse_log_line (log_line rec) = Return rec ↔ well_formed rec)
  ∧ (∀ line, parse_log_line line = Return rec →
       parse_log_line (log_line rec) = Return rec).
Proof.
  split; [split|].
  - apply parse_log_line_well_formed_record.
  - apply parse_log_line_of_log_line.
  - intros line Hrec. apply parse_log_line_of_log_line.
    by apply (parse_log_line_well_formed_record line).
Qed.

Lemma parsed_strip line line' :
  strip line = strip line' → parsed line = parsed line'.
Proof.
  intros Hstrip.
  destruct (parse_log_line_cases line)
    as [[Hlen Hr]|[(d & t & l & m & Hp & Hl & Hr)|(d & t & l & m & Hp & Hl & Hr)]];
    destruct (parse_log_line_cases line')
      as [[Hlen' Hr']|[(d' & t' & l' & m' & Hp' & Hl' & Hr')
                      |(d' & t' & l' & m' & Hp' & Hl' & Hr')]];
    unfold parsed; rewrite Hr, Hr'; rewrite Hstrip in *; try done;
    rewrite ?Hp, ?Hp' in *; simplify_eq; cbn [length] in *; try lia; done.
Qed.

(** X3. Whitespace before and after a line, such as its line end, changes
    neither whether the line parses nor the record it gives. *)
Theorem parse_log_line_ignores_padding (ws0 line ws1 : str) :
  allspace ws0 → allspace ws1 →
  parsed (ws0 ++ line ++ ws1) = parsed line.
Proof.
  intros Hws0 Hws1. apply parsed_strip. by apply strip_pad.
Qed.
End Parser.

Section Loader.
Context `{Unicode}.

Lemma rejected_stderr x e : rejected x = Some e → ∃ s, e = Stderr s.
Proof.
  unfold rejected. destruct (decide (blank x.2)); [done|].
  destruct (parse_log_line x.2); [done|]. intros [= <-]. by eexists.
Qed.

Lemma stdout_of_rejected numbered :
  stdout_of (omap rejected numbered) = [].
Proof.
  induction numbered as [|x rest IH]; [done|].
  cbn [omap list_omap]. destruct (rejected x) as [e|] eqn:He; [|done].
  by destruct (rejected_stderr x e He) as [s ->].
Qed.

Lemma stderr_of_rejected numbered :
  length (stderr_of (omap rejected numbered)) = length (omap rejected numbered).
Proof.
  induction numbered as [|x rest IH]; [done|].
  cbn [omap list_omap]. destruct (rejected x) as [e|] eqn:He; [|done].
  destruct (rejected_stderr x e He) as [s ->].
  unfold stderr_of in *. cbn [omap list_omap length]. by rewrite IH.
Qed.

(** Every line is blank, valid or malformed, and only one of these. *)
Lemma lines_partition lines :
  (length (filter valid lines) + length (filter malformed lines)
   + length (filter blank lines))%nat = length lines.
Proof.
  induction lines as [|line rest IH]; [done|].
  rewrite !filter_cons. cbn [length]. rewrite <- IH.
  destruct (decide (blank line)) as [Hb|Hnb].
  - rewrite decide_False by (by intros [? _]).
    rewrite decide_False by (by intros [? _]). cbn [length]. lia.
  - destruct (parsed line) as [rec|] eqn:Hp.
    + rewrite decide_True by (split; [done|by eexists]).
      rewrite decide_False by (intros [_ ?]; congruence). cbn [length]. lia.
    + rewrite decide_False by (intros [_ [? ?]]; congruence).
      rewrite decide_True by done. cbn [length]. lia.
Qed.

(** X4. When the file can be read to its end, every line is accounted
    for: the records, the warnings and the blank lines are as many as the
    lines; the warnings are all that is written, and they go to [stderr]. *)
Theorem load_logs_accounts_for_lines fs file_path lines :
  readable fs file_path lines →
  ∃ out logs,
    load_logs fs file_path = (out, Return logs)
    ∧ (length logs + length out + length (filter blank lines))%nat
      = length lines
    ∧ stdout_of out = []
    ∧ length (stderr_of out) = length out.
Proof.
  intros Hfs. exists (warnings_of lines), (records_of lines).
  split; [by apply load_logs_returns|].
  split; [|split; [apply stdout_of_rejected|apply stderr_of_rejected]].
  rewrite records_of_length. unfold warnings_of.
  rewrite (warnings_of_length_from 0). apply lines_partition.
Qed.

(** [load_logs] returns only for a file that can be read to its end. *)
Lemma load_logs_return_inv fs file_path out logs :
  load_logs fs file_path = (out, Return logs) →
  ∃ lines, readable fs file_path lines
           ∧ out = warnings_of lines ∧ logs = records_of lines.
Proof.
  intros Hload. destruct (fs file_path) as [exc|lines [exc|]] eqn:Hfs.
  - pose proof (load_logs_raises fs file_path exc (or_introl Hfs)) as Hr.
    rewrite Hload in Hr. done.
  - pose proof (load_logs_raises fs file_path exc
                  (or_intror (ex_intro _ lines Hfs))) as Hr.
    rewrite Hload in Hr. done.
  - exists lines. split; [done|].
    rewrite (load_logs_returns fs file_path lines Hfs) in Hload.
    by injection Hload as <- <-.
Qed.

Lemma records_of_well_formed lines : Forall well_formed (records_of lines).
Proof.
  apply Forall_forall. intros rec Hrec. unfold records_of in Hrec.
  apply list_elem_of_omap in Hrec as (line & _ & Hline).
  unfold parsed in Hline.
  destruct (parse_log_line line) as [rec'|] eqn:Hparse; [|done].
  injection Hline as ->. by eapply parse_log_line_well_formed_record.
Qed.

(** X5. Whatever the file system does, the records that [load_logs]
    returns are well formed, so [count_logs_by_level] on them returns and
    never raises [KeyError], and its four counts add up to their number. *)
Theorem load_logs_then_count fs file_path out logs :
  load_logs fs file_path = (out, Return logs) →
  Forall well_formed logs
  ∧ ∃ counts,
      count_logs_by_level logs = Return counts
      ∧ (get0 counts (u "INFO") + get0 counts (u "ERROR")
         + get0 counts (u "DEBUG") + get0 counts (u "WARNING"))%Z
        = Z.of_nat (length logs).
Proof.
  intros Hload.
  destruct (load_logs_return_inv _ _ _ _ Hload) as (lines & _ & _ & ->).
  split; [apply records_of_well_formed|].
  pose proof (records_of_levels lines) as Hlevels.
  destruct (count_logs_by_level_returns _ Hlevels) as (counts & Hcounts & Hlookup).
  exists counts. split; [done|].
  unfold get0. rewrite !Hlookup.
  rewrite !decide_True by (apply elem_of_LOG_LEVELS; tauto).
  cbn [default]. by apply occurrences_sum.
Qed.
End Loader.

Section Aggregator.
Context `{Unicode}.

(** [count_logs_by_level] returns only for records with levels of
    [LOG_LEVELS]. *)
Lemma count_logs_by_level_return_inv logs counts :
  count_logs_by_level logs = Return counts →
  Forall (λ rec, level rec ∈ LOG_LEVELS) logs.
Proof.
  intros Hcounts.
  destruct (decide (Forall (λ rec, level rec ∈ LOG_LEVELS) logs)) as [|Hsome];
    [done|].
  apply not_Forall_Exists in Hsome; [|apply _].
  destruct (tally_raises logs _ initial_counts_keys Hsome) as (key & Hkey & _).
  unfold count_logs_by_level in Hcounts. congruence.
Qed.

(** X6. The two aggregations agree: when both return, the count that
    [count_logs_by_level] gives for the upper-cased level is the number of
    records that [filter_logs_by_level] returns for the level. *)
Theorem filter_length_is_count (logs : list LogRecord) (lvl : str) counts out :
  count_logs_by_level logs = Return counts →
  filter_logs_by_level logs lvl = Return out →
  counts !! upper lvl = Some (Z.of_nat (length out)).
Proof.
  intros Hcounts Hout.
  pose proof (count_logs_by_level_return_inv _ _ Hcounts) as Hlevels.
  destruct (count_logs_by_level_returns logs Hlevels) as (counts' & Hcounts' & Hlookup).
  assert (counts' = counts) as -> by congruence.
  rewrite filter_logs_by_level_code in Hout.
  destruct (decide (upper lvl ∈ LOG_LEVELS)) as [Hlvl|]; [|done].
  injection Hout as <-. by rewrite Hlookup, decide_True.
Qed.

Lemma upper_level l : l ∈ LOG_LEVELS → upper l = l.
Proof.
  intros Hl. apply elem_of_LOG_LEVELS in Hl as [Hl|[Hl|[Hl|Hl]]]; subst l;
    by rewrite upper_ascii by (vm_compute; reflexivity).
Qed.

Lemma filter_level logs l :
  l ∈ LOG_LEVELS →
  filter_logs_by_level logs l = Return (filter (λ rec, level rec = l) logs).
Proof.
  intros Hl. rewrite filter_logs_by_level_code, (upper_level l Hl).
  by rewrite decide_True.
Qed.

(** X7. Filtering by the four levels splits the records: for records with
    levels of [LOG_LEVELS], each record is in the result of exactly one of
    the four filters, the one of its own level, and the four results have
    as many records as there are. *)
Theorem filter_logs_by_level_partition (logs : list LogRecord) :
  Forall (λ rec, level rec ∈ LOG_LEVELS) logs →
  ∃ infos errors debugs warnings,
    filter_logs_by_level logs (u "INFO") = Return infos
    ∧ filter_logs_by_level logs (u "ERROR") = Return errors
    ∧ filter_logs_by_level logs (u "DEBUG") = Return debugs
    ∧ filter_logs_by_level logs (u "WARNING") = Return warnings
    ∧ (length infos + length errors + length debugs + length warnings)%nat
      = length logs
    ∧ ∀ rec, rec ∈ logs →
        (rec ∈ infos ↔ level rec = u "INFO")
        ∧ (rec ∈ errors ↔ level rec = u "ERROR")
        ∧ (rec ∈ debugs ↔ level rec = u "DEBUG")
        ∧ (rec ∈ warnings ↔ level rec = u "WARNING").
Proof.
  intros Hlevels. eexists _, _, _, _.
  split; [apply filter_level, elem_of_LOG_LEVELS; tauto|].
  split; [apply filter_level, elem_of_LOG_LEVELS; tauto|].
  split; [apply filter_level, elem_of_LOG_LEVELS; tauto|].
  split; [apply filter_level, elem_of_LOG_LEVELS; tauto|].
  split.
  - pose proof (occurrences_sum logs Hlevels) as Hsum.
    unfold occurrences in Hsum. lia.
  - intros rec Hrec. rewrite !list_elem_of_filter. tauto.
Qed.

Lemma filter_none {A} (P : A → Prop) `{!∀ x, Decision (P x)} (l : list A) :
  (∀ x, ¬ P x) → filter P l = [].
Proof.
  intros HP. induction l as [|x l IH]; [done|].
  by rewrite filter_cons, decide_False.
Qed.

(** X8. Filtering what a filter returned: by the same level it changes
    nothing, by a level with another upper-cased form it leaves nothing. *)
Theorem filter_logs_by_level_twice (logs : list LogRecord) (lvl : str) out :
  filter_logs_by_level logs lvl = Return out →
  filter_logs_by_level out lvl = Return out
  ∧ ∀ lvl', supported lvl' → upper lvl' ≠ upper lvl →
      filter_logs_by_level out lvl' = Return [].
Proof.
  intros Hout. rewrite filter_logs_by_level_code in Hout.
  destruct (decide (upper lvl ∈ LOG_LEVELS)) as [Hlvl|]; [|done].
  injection Hout as <-. split.
  - rewrite filter_logs_by_level_code, decide_True by done. f_equal.
    by apply list_filter_filter_r.
  - intros lvl' Hlvl' Hne. unfold supported in Hlvl'.
    rewrite filter_logs_by_level_code, decide_True by done. f_equal.
    rewrite list_filter_filter. apply filter_none.
    intros rec [Hl Hl']. congruence.
Qed.
End Aggregator.

Section Reporter.
Context `{Unicode}.

Lemma for_each_print {A} (xs : list A) (f : A → str) :
  for_each xs (λ x, print (f x)) = ((λ x, Stdout (f x)) <$> xs, Return ()).
Proof.
  induction xs as [|x rest IH]; [done|].
  cbn [for_each]. rewrite IH. done.
Qed.

Lemma for_each_ext {A} (xs : list A) (f g : A → io ()) :
  (∀ x, x ∈ xs → f x = g x) → for_each xs f = for_each xs g.
Proof.
  induction xs as [|x rest IH]; intros Hfg; [done|].
  cbn [for_each]. rewrite (Hfg x) by apply list_elem_of_here.
  rewrite IH; [done|]. intros y Hy. apply Hfg. by apply list_elem_of_further.
Qed.

Lemma length_ljust w s : (length s ≤ w)%nat → length (ljust w s) = w.
Proof. intros Hw. unfold ljust. rewrite length_app, length_replicate. lia. Qed.

Lemma length_rjust w s : (length s ≤ w)%nat → length (rjust w s) = w.
Proof. intros Hw. unfold rjust. rewrite length_app, length_replicate. lia. Qed.

(** X9. The table of [display_log_counts] is aligned whatever the counts
    are: it is a header, a rule and one row for each level, in the order
    of [LOG_LEVELS], all on [stdout] and all of the same width, which is
    at least that of the two headers and the separator (28). *)
Theorem display_log_counts_aligned (counts : gmap str Z) :
  ∃ header rule rows,
    display_log_counts counts
    = (Stdout <$> header :: rule :: rows, Return ())
    ∧ length rows = length LOG_LEVELS
    ∧ Forall (λ row, length row = length header) (rule :: rows)
    ∧ Forall2 (λ row lvl, lvl `prefix_of` row) rows LOG_LEVELS
    ∧ (28 ≤ length header)%nat.
Proof.
  pose (hl := u "Рівень логування"). pose (hr := u "Кількість").
  pose (cell := λ lvl : str, str_of_int (get0 counts lvl)).
  pose (lw := (length hl `max` max_list (length <$> LOG_LEVELS))%nat).
  pose (rw := (length hr `max` max_list (length ∘ cell <$> LOG_LEVELS))%nat).
  change (display_log_counts counts)
    with (print (ljust lw hl ++ u " | " ++ rjust rw hr);;
          print (replicate lw 0x2D ++ u "-+-" ++ replicate rw 0x2D);;
          for_each LOG_LEVELS
            (λ lvl, print (ljust lw lvl ++ u " | " ++ rjust rw (cell lvl)))).
  assert (length hl = 16%nat) as Hhl by (vm_compute; reflexivity).
  assert (length hr = 9%nat) as Hhr by (vm_compute; reflexivity).
  clearbody hl hr.
  assert (∀ lvl, lvl ∈ LOG_LEVELS → (length lvl ≤ lw)%nat) as Hlw.
  { intros lvl Hlvl.
    pose proof (max_list_elem_of_le (length lvl) (length <$> LOG_LEVELS)) as Hle.
    unfold lw. rewrite Nat.max_le_iff. right. apply Hle.
    by apply list_elem_of_fmap_2. }
  assert (∀ lvl, lvl ∈ LOG_LEVELS → (length (cell lvl) ≤ rw)%nat) as Hrw.
  { intros lvl Hlvl.
    pose proof (max_list_elem_of_le (length (cell lvl))
                  (length ∘ cell <$> LOG_LEVELS)) as Hle.
    unfold rw. rewrite Nat.max_le_iff. right. apply Hle.
    by apply (list_elem_of_fmap_2 (length ∘ cell)). }
  rewrite (for_each_print LOG_LEVELS
             (λ lvl, ljust lw lvl ++ u " | " ++ rjust rw (cell lvl))).
  unfold print. rewrite !io_bind_return. cbn [fst snd app].
  exists (ljust lw hl ++ u " | " ++ rjust rw hr),
         (replicate lw 0x2D ++ u "-+-" ++ replicate rw 0x2D),
         ((λ lvl, ljust lw lvl ++ u " | " ++ rjust rw (cell lvl)) <$> LOG_LEVELS).
  split; [by rewrite !fmap_cons, <- list_fmap_compose|].
  assert (length (u " | ") = 3%nat) as Hsep by (vm_compute; reflexivity).
  assert (length (u "-+-") = 3%nat) as Hrule by (vm_compute; reflexivity).
  assert (length (ljust lw hl ++ u " | " ++ rjust rw hr) = (lw + 3 + rw)%nat)
    as Hheader.
  { rewrite !length_app, Hsep, length_ljust, length_rjust by lia. lia. }
  split; [by rewrite length_fmap|]. split; [|split].
  - rewrite Hheader. apply Forall_cons. split.
    + rewrite !length_app, !length_replicate, Hrule. lia.
    + apply Forall_fmap, Forall_forall. intros lvl Hlvl. cbn beta.
      unfold compose.
      rewrite !length_app, Hsep, length_ljust, length_rjust by auto. lia.
  - apply Forall2_fmap_l, Forall_Forall2_diag, Forall_forall.
    intros lvl _. unfold compose, ljust. rewrite <- app_assoc. by eexists.
  - rewrite Hheader. lia.
Qed.

(** X10. [display_log_counts] reads the dictionary at the four levels
    only, a missing level counting as 0: two dictionaries that agree there
    give the same table, whatever other keys they have. *)
Theorem display_log_counts_reads_levels (counts counts' : gmap str Z) :
  (∀ lvl, lvl ∈ LOG_LEVELS → get0 counts lvl = get0 counts' lvl) →
  display_log_counts counts = display_log_counts counts'.
Proof.
  intros Hagree.
  pose (hl := u "Рівень логування"). pose (hr := u "Кількість").
  pose (lw := (length hl `max` max_list (length <$> LOG_LEVELS))%nat).
  pose (width := λ cell : str → str,
          (length hr `max` max_list (length ∘ cell <$> LOG_LEVELS))%nat).
  pose (table := λ (cell : str → str) (rw : nat),
          print (ljust lw hl ++ u " | " ++ rjust rw hr);;
          print (replicate lw 0x2D ++ u "-+-" ++ replicate rw 0x2D);;
          for_each LOG_LEVELS
            (λ lvl, print (ljust lw lvl ++ u " | " ++ rjust rw (cell lvl)))).
  pose (cell := λ lvl : str, str_of_int (get0 counts lvl)).
  pose (cell' := λ lvl : str, str_of_int (get0 counts' lvl)).
  change (table cell (width cell) = table cell' (width cell')).
  assert (∀ lvl, lvl ∈ LOG_LEVELS → cell lvl = cell' lvl) as Hcell.
  { intros lvl Hlvl. unfold cell, cell'. by rewrite Hagree. }
  assert (width cell = width cell') as ->.
  { unfold width. do 2 f_equal. apply list_fmap_ext. intros i lvl Hlvl.
    unfold compose. by rewrite Hcell by by eapply list_elem_of_lookup_2. }
  unfold table.
  rewrite (for_each_ext LOG_LEVELS
             (λ lvl, print (ljust lw lvl ++ u " | "
                              ++ rjust (width cell') (cell lvl)))
             (λ lvl, print (ljust lw lvl ++ u " | "
                              ++ rjust (width cell') (cell' lvl)))); [done|].
  intros lvl Hlvl. by rewrite Hcell.
Qed.

(** X11. [display_log_details] never prints an empty listing: after the
    header it prints the notice when there is no record, and otherwise one
    line for each record, in order, made of its date, time and message;
    all of it goes to [stdout] and nothing is raised. *)
Theorem display_log_details_lines (logs : list LogRecord) (lvl : str) :
  ∃ header body,
    display_log_details logs lvl = (Stdout <$> header :: body, Return ())
    ∧ length body = (1 `max` length logs)%nat
    ∧ (logs ≠ [] →
       body = (λ rec, date rec ++ u " " ++ time rec ++ u " - " ++ message rec)
              <$> logs).
Proof.
  unfold display_log_details. cbv zeta.
  rewrite (io_bind_returns (print _) ()) by done. cbn [fst snd print].
  case_bool_decide as Hlogs.
  - subst logs. eexists _, [_]. by split.
  - rewrite for_each_print. cbn [fst snd].
    eexists _, ((λ rec, date rec ++ u " " ++ time rec ++ u " - " ++ message rec)
                <$> logs).
    split; [by rewrite fmap_cons, <- list_fmap_compose|].
    split; [|done]. rewrite length_fmap. destruct logs; [done|]. cbn [length]. lia.
Qed.
End Reporter.

Section Driver.
Context `{Unicode}.

Local Abbreviation main_body fs file_path rest :=
  (logs ← load_logs fs file_path;
   counts ← lift (count_logs_by_level logs);
   display_log_counts counts;;
   match head rest with
   | Some lvl =>
       filtered ← lift (filter_logs_by_level logs lvl);
       display_log_details filtered lvl
   | None => mret ()
   end;;
   mret (@None Z)).

Lemma stdout_of_app out out' :
  stdout_of (out ++ out') = stdout_of out ++ stdout_of out'.
Proof. apply omap_app. Qed.

Lemma stdout_of_Stdout lines : stdout_of (Stdout <$> lines) = lines.
Proof.
  induction lines as [|l rest IH]; [done|].
  unfold stdout_of in *. rewrite fmap_cons. cbn [omap list_omap].
  by rewrite IH.
Qed.

(** What [load_logs] writes is warnings, also when it raises. *)
Lemma load_logs_writes fs file_path :
  ∃ lines, (load_logs fs file_path).1 = warnings_of lines.
Proof.
  destruct (fs file_path) as [exc|lines [exc|]] eqn:Hfs.
  - exists []. unfold load_logs. rewrite Hfs.
    destruct (issubclass (exc_type exc) OSError) eqn:Hos.
    + by rewrite load_logs_catches.
    + by rewrite load_logs_passes.
  - exists lines. unfold load_logs. rewrite Hfs.
    change 1%Z with (Z.of_nat 0 + 1)%Z. rewrite for_lines_spec.
    rewrite io_bind_return. cbn [fst snd]. rewrite app_nil_r.
    destruct (issubclass (exc_type exc) OSError) eqn:Hos.
    + by rewrite load_logs_catches.
    + by rewrite load_logs_passes.
  - exists lines. by rewrite (load_logs_returns fs file_path lines Hfs).
Qed.

Lemma main_propagates fs prog file_path rest exc :
  (main_body fs file_path rest).2 = Raise exc →
  isinstance exc [FileNotFoundError; OSError; ValueError] = false →
  main fs (prog :: file_path :: rest)
  = ((main_body fs file_path rest).1, Raise exc).
Proof.
  intros Hbody Hcaught. rewrite main_with_path.
  rewrite (try_except_raises _ _ _ Hbody). cbn [dispatch]. rewrite Hcaught.
  cbn [fst snd]. by rewrite app_nil_r.
Qed.

Lemma io_bind_lift {A B} (a : A) (f : A → io B) :
  (lift (Return a) ≫= f) = f a.
Proof. apply io_bind_pure. Qed.

Lemma io_bind_lift_raise {A B} exc (f : A → io B) :
  (lift (Raise exc) ≫= f) = ([], Raise exc).
Proof. done. Qed.

(** What follows [load_logs] in the body of the [try] statement. *)
Lemma main_after_load logs counts rest :
  count_logs_by_level logs = Return counts →
  (counts ← lift (count_logs_by_level logs);
   display_log_counts counts;;
   match head rest with
   | Some lvl =>
       filtered ← lift (filter_logs_by_level logs lvl);
       display_log_details filtered lvl
   | None => mret ()
   end;;
   mret (@None Z))
  = match head rest with
    | None => ((display_log_counts counts).1, Return None)
    | Some lvl =>
        if decide (upper lvl ∈ LOG_LEVELS) then
          ((display_log_counts counts).1
             ++ (display_log_details
                   (filter (λ rec, level rec = upper lvl) logs) lvl).1,
           Return None)
        else
          ((display_log_counts counts).1, Raise (unsupported_level_error lvl))
    end.
Proof.
  intros Hcounts. rewrite Hcounts, io_bind_lift.
  rewrite (io_bind_returns _ () _ (display_log_counts_returns counts)).
  destruct (head rest) as [lvl|].
  - rewrite filter_logs_by_level_code. case_decide.
    + rewrite io_bind_lift.
      rewrite (io_bind_returns _ () _ (display_log_details_returns _ lvl)).
      rewrite io_mret. cbn [fst snd]. by rewrite !app_nil_r.
    + rewrite io_bind_lift_raise, io_bind_raise. cbn [fst snd].
      by rewrite !app_nil_r.
  - rewrite !io_mret, io_bind_pure. cbn [fst snd]. by rewrite !app_nil_r.
Qed.

(** The body of the [try] statement for a file that can be read. *)
Lemma main_body_of_readable fs file_path rest lines :
  readable fs file_path lines →
  ∃ counts,
    count_logs_by_level (records_of lines) = Return counts
    ∧ main_body fs file_path rest
      = match head rest with
        | None =>
            (warnings_of lines ++ (display_log_counts counts).1, Return None)
        | Some lvl =>
            if decide (upper lvl ∈ LOG_LEVELS) then
              (warnings_of lines ++ (display_log_counts counts).1
                 ++ (display_log_details
                       (filter (λ rec, level rec = upper lvl) (records_of lines))
                       lvl).1,
               Return None)
            else
              (warnings_of lines ++ (display_log_counts counts).1,
               Raise (unsupported_level_error lvl))
        end.
Proof.
  intros Hfs.
  destruct (count_logs_by_level_returns _ (records_of_levels lines))
    as (counts & Hcounts & _).
  exists counts. split; [done|].
  rewrite (load_logs_returns fs file_path lines Hfs), io_bind_return.
  rewrite (main_after_load _ counts rest Hcounts).
  destruct (head rest) as [lvl|]; [case_decide|]; done.
Qed.

(** X15. The report of a successful run: for a file that can be read and
    a level that is supported or not given, [main] writes the warnings of
    the loader, then the table of the counts of the records, then, if a
    level is given, the details of the records of that level, and returns
    0. *)
Theorem main_prints_report fs prog file_path rest lines :
  readable fs file_path lines →
  (∀ lvl, head rest = Some lvl → supported lvl) →
  ∃ counts,
    count_logs_by_level (records_of lines) = Return counts
    ∧ main fs (prog :: file_path :: rest)
      = (warnings_of lines ++ (display_log_counts counts).1
           ++ match head rest with
              | None => []
              | Some lvl =>
                  (display_log_details
                     (filter (λ rec, level rec = upper lvl) (records_of lines))
                     lvl).1
              end,
         Return 0%Z).
Proof.
  intros Hfs Hlvl.
  destruct (main_body_of_readable fs file_path rest lines Hfs)
    as (counts & Hcounts & Hbody).
  exists counts. split; [done|].
  rewrite main_returns; rewrite Hbody.
  - destruct (head rest) as [lvl|]; [|by rewrite app_nil_r].
    by rewrite decide_True by by apply Hlvl.
  - destruct (head rest) as [lvl|]; [|done].
    by rewrite decide_True by by apply Hlvl.
Qed.

(** X14. A level that is not supported is found out after the table is
    printed: for a file that can be read, [main] writes the warnings, the
    table of the counts, then the error on [stderr], and returns 1. *)
Theorem main_unsupported_level_after_table fs prog file_path lvl rest lines :
  readable fs file_path lines →
  ¬ supported lvl →
  ∃ counts,
    count_logs_by_level (records_of lines) = Return counts
    ∧ main fs (prog :: file_path :: lvl :: rest)
      = (warnings_of lines ++ (display_log_counts counts).1
           ++ [Stderr (u "Error: " ++ exc_arg (unsupported_level_error lvl))],
         Return 1%Z).
Proof.
  intros Hfs Hlvl.
  destruct (main_body_of_readable fs file_path (lvl :: rest) lines Hfs)
    as (counts & Hcounts & Hbody).
  exists counts. split; [done|].
  pose proof (main_reports fs prog file_path (lvl :: rest)
                (unsupported_level_error lvl)) as Hmain.
  rewrite Hbody in Hmain. cbn [head] in Hmain.
  rewrite decide_False in Hmain by done.
  rewrite Hmain by done. cbn [fst]. by rewrite <- app_assoc.
Qed.

(** What [load_logs] raises when the file system fails with an error of
    the classes [main] handles: an error of these classes again, whose
    text is its argument. *)
Lemma load_logs_raised fs file_path exc :
  fails_with fs file_path exc →
  isinstance exc [OSError; ValueError] = true →
  ∃ raised,
    (load_logs fs file_path).2 = Raise raised
    ∧ isinstance raised [FileNotFoundError; OSError; ValueError] = true
    ∧ str_exc raised = exc_arg raised.
Proof.
  intros Hfs Hcaught.
  pose proof (load_logs_raises fs file_path exc Hfs) as Hload.
  cbn [isinstance existsb] in Hcaught. rewrite orb_false_r in Hcaught.
  destruct (issubclass (exc_type exc) OSError) eqn:Hos.
  - destruct (issubclass (exc_type exc) FileNotFoundError);
      eexists; (split; [exact Hload|done]).
  - cbn [orb] in Hcaught. exists exc. split; [done|]. split.
    + cbn [isinstance existsb]. by rewrite Hcaught, !orb_true_r.
    + unfold str_exc. by destruct (exc_type exc).
Qed.

(** X13. When the file cannot be loaded, no table is printed: if opening
    or reading the file fails with an [OSError] or a [ValueError], [main]
    writes nothing to [stdout], ends with one error line on [stderr] that
    shows the error of [load_logs], and returns 1. *)
Theorem main_load_failure_prints_no_table fs prog file_path rest exc :
  fails_with fs file_path exc →
  isinstance exc [OSError; ValueError] = true →
  ∃ out raised,
    main fs (prog :: file_path :: rest)
    = (out ++ [Stderr (u "Error: " ++ exc_arg raised)], Return 1%Z)
    ∧ stdout_of out = []
    ∧ (load_logs fs file_path).2 = Raise raised.
Proof.
  intros Hfs Hcaught.
  destruct (load_logs_raised fs file_path exc Hfs Hcaught)
    as (raised & Hload & Hraised & Hstr).
  destruct (load_logs_writes fs file_path) as [lines Hout].
  exists (warnings_of lines), raised.
  rewrite (main_reports _ _ _ _ raised);
    [|by rewrite (io_bind_snd_raises _ raised)|done].
  rewrite (io_bind_raises _ raised) by done. cbn [fst]. rewrite Hout, Hstr.
  split; [done|]. split; [apply stdout_of_rejected|done].
Qed.

(** X12. [main] raises nothing of its own: it returns 0 or 1, unless the
    file system fails with an exception that is neither an [OSError] nor a
    [ValueError], which it lets through; the [KeyError] of the counting
    and the [IndexError] of [argv[1]] cannot happen. *)
Theorem main_returns_or_passes (fs : filesystem) (argv : list str) :
  (∃ out code, main fs argv = (out, Return code) ∧ (code = 0 ∨ code = 1)%Z)
  ∨ (∃ out prog file_path rest exc,
       argv = prog :: file_path :: rest
       ∧ fails_with fs file_path exc
       ∧ isinstance exc [OSError; ValueError] = false
       ∧ main fs argv = (out, Raise exc)).
Proof.
  destruct argv as [|prog [|file_path rest]].
  - left. eexists _, _. split; [reflexivity|by right].
  - left. eexists _, _. split; [reflexivity|by right].
  - destruct (fs file_path) as [exc|lines [exc|]] eqn:Hfs.
    1,2: assert (fails_with fs file_path exc) as Hfails
           by (first [by left|right; by eexists]);
         pose proof (load_logs_raises fs file_path exc Hfails) as Hload;
         destruct (isinstance exc [OSError; ValueError]) eqn:Hcaught;
         [ left;
           destruct (load_logs_raised fs file_path exc Hfails Hcaught)
             as (raised & Hraised & Hclass & _);
           eexists _, _; split; [|by right];
           apply (main_reports _ _ _ _ raised);
             [by rewrite (io_bind_snd_raises _ raised)|done]
         | right; exists (load_logs fs file_path).1, prog, file_path, rest, exc;
           split; [done|]; split; [done|]; split; [done|];
           cbn [isinstance existsb] in Hcaught;
           rewrite orb_false_r in Hcaught;
           apply orb_false_iff in Hcaught as [Hos Hval];
           rewrite Hos in Hload;
           rewrite (main_propagates _ _ _ _ exc);
             [ by rewrite (io_bind_raises _ exc)
             | by rewrite (io_bind_snd_raises _ exc)
             | cbn [isinstance existsb]; rewrite Hos, Hval;
               by destruct (exc_type exc) ] ].
    left.
    destruct (main_body_of_readable fs file_path rest lines Hfs)
      as (counts & _ & Hbody).
    assert ((main_body fs file_path rest).2 = Return None
            ∨ ∃ lvl, (main_body fs file_path rest).2
                     = Raise (unsupported_level_error lvl)) as [Hend|[lvl Hend]].
    { rewrite Hbody. destruct (head rest) as [lvl|]; [case_decide|]; eauto. }
    + eexists _, _. split; [|by left]. by apply main_returns.
    + eexists _, _. split; [|by right].
      by apply (main_reports _ _ _ _ (unsupported_level_error lvl)).
Qed.
End Driver.

End Log_more.

(** ** More about the contact assistant *)

Module Contacts_more.
Import Py Py_facts Py_more Trace Task_four Log_facts Contacts_facts.

(** *** The contact book *)

Lemma contains_names d key : contains d key = true ↔ key ∈ names d.
Proof. unfold contains, names. apply bool_decide_eq_true. Qed.

Lemma names_setitem d key value :
  names (setitem d key value)
  = if contains d key then names d else names d ++ [key].
Proof.
  unfold names. induction d as [|[k v] rest IH]; [done|].
  cbn [setitem]. case_decide as Hk.
  - subst k. rewrite (proj2 (contains_names _ _)); [done|]. unfold names. by left.
  - cbn [fmap list_fmap fst]. rewrite IH.
    destruct (contains rest key) eqn:Hin.
    + rewrite (proj2 (contains_names _ _)); [done|].
      unfold names. right. by apply contains_names.
    + assert (contains ((k, v) :: rest) key = false) as ->; [|done].
      apply not_true_iff_false. rewrite contains_names. unfold names.
      cbn [fmap list_fmap fst]. rewrite elem_of_cons. intros [->|Hrest]; [done|].
      apply contains_names in Hrest. congruence.
Qed.

Lemma setitem_length d key value :
  length (setitem d key value)
  = if contains d key then length d else S (length d).
Proof.
  pose proof (names_setitem d key value) as Hn.
  apply (f_equal length) in Hn. unfold names in Hn.
  rewrite length_fmap in Hn. rewrite Hn.
  destruct (contains d key); rewrite ?length_app, length_fmap; cbn [length]; lia.
Qed.

Lemma names_setitem_NoDup d key value :
  NoDup (names d) → NoDup (names (setitem d key value)).
Proof.
  intros Hd. rewrite names_setitem. destruct (contains d key) eqn:Hin; [done|].
  apply NoDup_app. split; [done|]. split; [|apply NoDup_singleton].
  intros k Hk Hk'. apply list_elem_of_singleton in Hk' as ->.
  apply contains_names in Hk. congruence.
Qed.

Lemma names_setitem_prefix d key value :
  names d `prefix_of` names (setitem d key value).
Proof.
  rewrite names_setitem. destruct (contains d key); [done|].
  by apply prefix_app_r.
Qed.

Section Handlers.
Context `{Unicode}.

(** *** The decorator *)

(** X16. Whatever the function, the decorated function leaves the contact
    book as the function left it, returns what the function returned, and
    never raises a [ValueError], a [KeyError] or an [IndexError], nor an
    error of a subclass of these: such an error is returned as its text.
    Other errors pass, and decorating twice is the same as decorating
    once. *)
Theorem input_error_catches {X} (func : X → outcome) (args : X) :
  (input_error func args).1 = (func args).1
  ∧ (∀ reply, (func args).2 = Return reply →
       (input_error func args).2 = Return reply)
  ∧ (∀ exc, (func args).2 = Raise exc →
       (input_error func args).2
       = if isinstance exc [ValueError; KeyError; IndexError]
         then Return (str_exc exc) else Raise exc)
  ∧ (∀ exc, (input_error func args).2 = Raise exc →
       isinstance exc [ValueError; KeyError; IndexError] = false
       ∧ (func args).2 = Raise exc)
  ∧ input_error (input_error func) args = input_error func args.
Proof.
  unfold input_error.
  destruct (func args) as [contacts [reply|exc]]; cbn [fst snd].
  - split; [done|]. split; [by intros ? [= <-]|]. do 2 (split; [done|]). done.
  - destruct (isinstance exc [ValueError; KeyError; IndexError]) eqn:Hcaught;
      cbn [fst snd].
    + split; [done|]. split; [done|].
      split; [intros ? [= <-]; by rewrite Hcaught|]. split; done.
    + split; [done|]. split; [done|].
      split; [intros ? [= <-]; by rewrite Hcaught|].
      split; [by intros ? [= <-]|]. by rewrite Hcaught.
Qed.

(** *** The handlers *)

Lemma show_phone_reply name contacts :
  (show_phone ([name], contacts)).2
  = Return (default not_found_reply (getitem contacts name)).
Proof. by rewrite show_phone_one. Qed.

(** X17. After [add name phone] the phone of [name] is [phone], whatever
    the contact book was, and the phones of the other names are what they
    were; a new name goes to the end of the book and a known name keeps
    its place. *)
Theorem add_contact_then_show_phone (name phone : str) (contacts : dict) :
  ∃ contacts',
    add_contact ([name; phone], contacts)
    = (contacts', Return (u "Contact added."))
    ∧ show_phone ([name], contacts') = (contacts', Return phone)
    ∧ (∀ other, other ≠ name →
         (show_phone ([other], contacts')).2 = (show_phone ([other], contacts)).2)
    ∧ names contacts'
      = if contains contacts name then names contacts
        else names contacts ++ [name].
Proof.
  exists (setitem contacts name phone).
  split; [apply add_contact_two|]. split; [|split].
  - rewrite show_phone_one, getitem_setitem. by rewrite decide_True.
  - intros other Hother. rewrite !show_phone_reply, getitem_setitem.
    by rewrite decide_False.
  - apply names_setitem.
Qed.

(** X18. [change name phone] for a name of the contact book sets its phone
    and is answered [Contact updated.]: afterwards the phone of [name] is
    [phone], the other phones are what they were, and the names and their
    order are the same. *)
Theorem change_contact_updates (name new_phone : str) (contacts : dict) :
  contains contacts name = true →
  ∃ contacts',
    change_contact ([name; new_phone], contacts)
    = (contacts', Return (u "Contact updated."))
    ∧ show_phone ([name], contacts') = (contacts', Return new_phone)
    ∧ (∀ other, other ≠ name →
         (show_phone ([other], contacts')).2 = (show_phone ([other], contacts)).2)
    ∧ names contacts' = names contacts.
Proof.
  intros Hin. exists (setitem contacts name new_phone).
  split; [by rewrite change_contact_two, Hin|]. split; [|split].
  - rewrite show_phone_one, getitem_setitem. by rewrite decide_True.
  - intros other Hother. rewrite !show_phone_reply, getitem_setitem.
    by rewrite decide_False.
  - by rewrite names_setitem, Hin.
Qed.

Lemma add_contact_book args contacts :
  (add_contact (args, contacts)).1 = contacts
  ∨ ∃ name phone, (add_contact (args, contacts)).1 = setitem contacts name phone.
Proof.
  destruct (decide (length args = 2%nat)) as [Hlen|Hlen].
  - destruct args as [|name [|phone [|? ?]]]; try done.
    right. exists name, phone. by rewrite add_contact_two.
  - left. by rewrite add_contact_arity.
Qed.

Lemma change_contact_book args contacts :
  (change_contact (args, contacts)).1 = contacts
  ∨ ∃ name phone,
      contains contacts name = true
      ∧ (change_contact (args, contacts)).1 = setitem contacts name phone.
Proof.
  destruct (decide (length args = 2%nat)) as [Hlen|Hlen].
  - destruct args as [|name [|phone [|? ?]]]; try done.
    rewrite change_contact_two. destruct (contains contacts name) eqn:Hin.
    + right. by exists name, phone.
    + by left.
  - left. by rewrite change_contact_arity.
Qed.

(** X19. [change] never adds a contact: whatever its arguments, the names
    of the contact book and their order are the same afterwards. *)
Theorem change_contact_keeps_names (args : list str) (contacts : dict) :
  names (change_contact (args, contacts)).1 = names contacts.
Proof.
  destruct (change_contact_book args contacts)
    as [->|(name & phone & Hin & ->)]; [done|].
  by rewrite names_setitem, Hin.
Qed.

(** *** The listing *)

Lemma show_all_listing contacts :
  contacts ≠ [] →
  show_all contacts = (contacts, Return (join [0x0A] (entry <$> contacts))).
Proof.
  intros Hne. unfold show_all. apply input_error_return.
  rewrite bool_decide_eq_false_2 by done.
  assert (((λ '(name, phone), name ++ u ": " ++ phone) <$> contacts)
          = entry <$> contacts) as ->; [|done].
  apply list_fmap_ext. by intros i [name phone] _.
Qed.

Lemma setitem_new contacts name phone :
  contains contacts name = false →
  setitem contacts name phone = contacts ++ [(name, phone)].
Proof.
  intros Hin. induction contacts as [|[k v] rest IH]; [done|].
  assert (k ≠ name ∧ contains rest name = false) as [Hk Hrest].
  { split.
    - intros ->. apply not_true_iff_false in Hin. apply Hin.
      apply contains_names. by left.
    - apply not_true_iff_false. intros Hrest.
      apply not_true_iff_false in Hin. apply Hin.
      apply contains_names. right. by apply contains_names. }
  cbn [setitem]. rewrite decide_False by done. cbn [app]. f_equal. by apply IH.
Qed.

(** X20. A new contact is listed last: after [add name phone] for a name
    that the contact book, not empty, does not have, [all] gives the
    listing of before, a newline, and the line [name: phone]. *)
Theorem add_contact_then_show_all (name phone : str) (contacts : dict) (listing : str) :
  contains contacts name = false →
  contacts ≠ [] →
  show_all contacts = (contacts, Return listing) →
  ∃ contacts',
    add_contact ([name; phone], contacts)
    = (contacts', Return (u "Contact added."))
    ∧ show_all contacts'
      = (contacts', Return (listing ++ [0x0A] ++ name ++ u ": " ++ phone)).
Proof.
  intros Hin Hne Hall. exists (setitem contacts name phone).
  split; [apply add_contact_two|].
  rewrite show_all_listing in Hall by done. injection Hall as <-.
  rewrite setitem_new by done.
  rewrite show_all_listing by by destruct contacts.
  rewrite fmap_app. cbn [fmap list_fmap].
  rewrite join_snoc; [done|]. by destruct contacts.
Qed.

(** *** The parser of the command line *)

Lemma parse_input_split user_input :
  parse_input user_input
  = match split user_input with
    | [] => ([], [])
    | cmd :: args => (lower cmd, args)
    end.
Proof. unfold parse_input. by rewrite split_strip. Qed.

(** X21. The arguments that [parse_input] gives are not empty and have no
    whitespace in them; whitespace around the line changes nothing; and a
    line of whitespace only has no command word and no arguments. *)
Theorem parse_input_arguments (user_input : str) :
  Forall (λ arg, arg ≠ [] ∧ nospace arg) (parse_input user_input).2
  ∧ (∀ ws0 ws1, allspace ws0 → allspace ws1 →
       parse_input (ws0 ++ user_input ++ ws1) = parse_input user_input)
  ∧ (allspace user_input → parse_input user_input = ([], [])).
Proof.
  split; [|split].
  - rewrite parse_input_split. pose proof (split_items user_input) as Hitems.
    destruct (split user_input) as [|cmd args]; [constructor|].
    by apply Forall_inv_tail in Hitems.
  - intros ws0 ws1 Hws0 Hws1. rewrite !parse_input_split.
    by rewrite split_pad.
  - intros Hws. rewrite parse_input_split. by rewrite split_allspace.
Qed.

(** X22. A command word and arguments, none empty and all free of
    whitespace, written on one line with single spaces between them, are
    parsed to the command word in lower case and the same arguments. *)
Theorem parse_input_of_words (cmd : str) (args : list str) :
  Forall (λ t, t ≠ [] ∧ nospace t) (cmd :: args) →
  parse_input (join [0x20] (cmd :: args)) = (lower cmd, args).
Proof.
  intros Hwords. rewrite parse_input_split. by rewrite split_join.
Qed.

End Handlers.

Section Session.
Context `{Unicode}.

(** *** One line *)

(** The branches of [command], by the command word. *)
Lemma command_cases user_input contacts :
  (leaves user_input
   ∧ command user_input contacts = ([Stdout (u "Good bye!")], Return None))
  ∨ (¬ leaves user_input
     ∧ ((word user_input = []
         ∧ command user_input contacts = ([], Return (Some contacts)))
        ∨ (word user_input ≠ []
           ∧ ((word user_input = u "add"
               ∧ command user_input contacts
                 = print_reply (add_contact ((parse_input user_input).2, contacts)))
              ∨ (word user_input = u "change"
                 ∧ command user_input contacts
                   = print_reply
                       (change_contact ((parse_input user_input).2, contacts)))
              ∨ ((word user_input ∉ [u "add"; u "change"])
                 ∧ ∃ reply,
                     command user_input contacts
                     = ([Stdout reply], Return (Some contacts))))))).
Proof.
  unfold leaves, word, command.
  destruct (parse_input user_input) as [cmd args]. cbn [fst snd].
  case_bool_decide as Hleave; [by left|]. right. split; [done|].
  case_bool_decide as Hempty; [by left|]. right. split; [done|].
  assert (∀ reply : str,
            ((print reply;; mret (Some contacts)) : io (option dict))
            = ([Stdout reply], Return (Some contacts))) as Hprint by done.
  case_bool_decide as Hhello.
  { right. right. split; [subst cmd; by_decision|]. eexists. apply Hprint. }
  case_bool_decide as Hadd; [by left|].
  case_bool_decide as Hchange; [right; by left|].
  right. right. split.
  { rewrite !elem_of_cons, elem_of_nil. tauto. }
  case_bool_decide as Hphone.
  { destruct (show_phone_returns args contacts) as [reply ->]. by eexists. }
  case_bool_decide as Hall.
  { destruct (show_all_returns contacts) as [reply ->]. by eexists. }
  eexists. apply Hprint.
Qed.

Lemma print_reply_add args contacts :
  ∃ reply,
    print_reply (add_contact (args, contacts))
    = ([Stdout reply], Return (Some (add_contact (args, contacts)).1)).
Proof.
  destruct (add_contact_returns args contacts) as (contacts' & reply & ->).
  by exists reply.
Qed.

Lemma print_reply_change args contacts :
  ∃ reply,
    print_reply (change_contact (args, contacts))
    = ([Stdout reply], Return (Some (change_contact (args, contacts)).1)).
Proof.
  destruct (change_contact_returns args contacts) as (contacts' & reply & ->).
  by exists reply.
Qed.

(** X23. A line never makes the loop fail: [command] raises nothing,
    whatever the line and the contact book. It prints nothing for a line
    without a command word and one line on [stdout] otherwise, and it
    leaves the loop exactly for the command words [close] and [exit]. *)
Theorem command_never_raises (user_input : str) (contacts : dict) :
  ∃ out next,
    command user_input contacts = (out, Return next)
    ∧ (next = None ↔ leaves user_input)
    ∧ (word user_input = [] → out = [])
    ∧ (word user_input ≠ [] → ∃ reply, out = [Stdout reply]).
Proof.
  destruct (command_cases user_input contacts)
    as [[Hleave ->]|[Hstay [[Hword ->]|[Hword [[_ ->]|[[_ ->]|[_ [reply ->]]]]]]]].
  - eexists _, _. split; [done|]. split; [done|]. split; [|by eexists].
    intros Hword. unfold leaves in Hleave. rewrite Hword in Hleave.
    exfalso. revert Hleave. by_decision.
  - eexists _, _. split; [done|]. split; [done|]. split; done.
  - destruct (print_reply_add (parse_input user_input).2 contacts) as [reply ->].
    eexists _, _. split; [done|]. split; [done|]. split; [done|by eexists].
  - destruct (print_reply_change (parse_input user_input).2 contacts)
      as [reply ->].
    eexists _, _. split; [done|]. split; [done|]. split; [done|by eexists].
  - eexists _, _. split; [done|]. split; [done|]. split; [done|by eexists].
Qed.

(** X24. What a line can do to the contact book: only [add] and [change]
    write to it, no line removes a contact or moves one, at most one
    contact is added, and no name comes to be there twice. *)
Theorem command_book (user_input : str) (contacts contacts' : dict) out :
  command user_input contacts = (out, Return (Some contacts')) →
  (word user_input ∉ [u "add"; u "change"] → contacts' = contacts)
  ∧ names contacts `prefix_of` names contacts'
  ∧ (length contacts' ≤ S (length contacts))%nat
  ∧ (NoDup (names contacts) → NoDup (names contacts')).
Proof.
  intros Hcommand.
  assert (contacts' = contacts
          ∧ (word user_input ∉ [u "add"; u "change"]
             ∨ word user_input ∈ [u "add"; u "change"])
          ∨ (word user_input ∈ [u "add"; u "change"]
             ∧ ∃ name phone, contacts' = setitem contacts name phone))
    as [[-> _]|[Hword (name & phone & ->)]].
  { destruct (command_cases user_input contacts)
      as [[_ Heq]|[_ [[_ Heq]|[_ [[Hword Heq]|[[Hword Heq]|[Hword [reply Heq]]]]]]]];
      rewrite Heq in Hcommand.
    - done.
    - injection Hcommand as _ <-. left. split; [done|].
      destruct (decide (word user_input ∈ [u "add"; u "change"])); tauto.
    - destruct (print_reply_add (parse_input user_input).2 contacts)
        as [reply Hreply].
      rewrite Hreply in Hcommand. injection Hcommand as _ <-.
      assert (word user_input ∈ [u "add"; u "change"]) as Hin
        by (rewrite Hword; by left).
      destruct (add_contact_book (parse_input user_input).2 contacts)
        as [->|(name & phone & ->)]; [left; tauto|right].
      split; [done|]. by exists name, phone.
    - destruct (print_reply_change (parse_input user_input).2 contacts)
        as [reply Hreply].
      rewrite Hreply in Hcommand. injection Hcommand as _ <-.
      assert (word user_input ∈ [u "add"; u "change"]) as Hin
        by (rewrite Hword; right; by left).
      destruct (change_contact_book (parse_input user_input).2 contacts)
        as [->|(name & phone & _ & ->)]; [left; tauto|right].
      split; [done|]. by exists name, phone.
    - injection Hcommand as _ <-. left. tauto. }
  - split; [done|]. split; [done|]. split; [lia|done].
  - split; [done|]. split; [apply names_setitem_prefix|].
    split; [|apply names_setitem_NoDup].
    rewrite setitem_length. destruct (contains contacts name); lia.
Qed.

(** X25. [hello], [all], [close], [exit] and the words that are no
    command do not look at what follows them: two lines with the same
    command word, other than [add], [change] and [phone], do the same. *)
Theorem command_ignores_arguments (line1 line2 : str) (contacts : dict) :
  word line1 = word line2 →
  word line1 ∉ [u "add"; u "change"; u "phone"] →
  command line1 contacts = command line2 contacts.
Proof.
  unfold word, command.
  destruct (parse_input line1) as [cmd args1].
  destruct (parse_input line2) as [cmd2 args2]. cbn [fst].
  intros <- Hword. rewrite !elem_of_cons, elem_of_nil in Hword.
  repeat (case_bool_decide; [tauto || done|]). done.
Qed.

(** *** The session *)

Lemma while_true_cons user_input rest contacts :
  while_true (user_input :: rest) contacts
  = (Prompt (u "Enter a command: ")
       :: (command user_input contacts).1
       ++ match (command user_input contacts).2 with
          | Return (Some contacts') => (while_true rest contacts').1
          | _ => []
          end,
     match (command user_input contacts).2 with
     | Return (Some contacts') => (while_true rest contacts').2
     | Return None => Return ()
     | Raise exc => Raise exc
     end).
Proof.
  cbn [while_true input]. rewrite io_bind_return. cbn [app].
  destruct (command user_input contacts) as [out [[contacts'|]|exc]];
    cbn [fst snd mbind io_bind].
  - destruct (while_true rest contacts'). reflexivity.
  - reflexivity.
  - rewrite app_nil_r. reflexivity.
Qed.

Lemma command_leaves user_input contacts :
  leaves user_input →
  command user_input contacts = ([Stdout (u "Good bye!")], Return None).
Proof.
  intros Hleave.
  by destruct (command_cases user_input contacts) as [[_ ->]|[Hstay _]].
Qed.

Lemma command_stays user_input contacts :
  ¬ leaves user_input →
  ∃ out contacts',
    command user_input contacts = (out, Return (Some contacts'))
    ∧ prompts_of out = [] ∧ stderr_of out = [].
Proof.
  intros Hstay.
  destruct (command_cases user_input contacts)
    as [[Hleave _]|[_ [[_ ->]|[_ [[_ ->]|[[_ ->]|[_ [reply ->]]]]]]]]; [done|..].
  - by eexists _, _.
  - destruct (print_reply_add (parse_input user_input).2 contacts) as [reply ->].
    by eexists _, _.
  - destruct (print_reply_change (parse_input user_input).2 contacts)
      as [reply ->].
    by eexists _, _.
  - by eexists _, _.
Qed.

Lemma prompts_of_app out out' :
  prompts_of (out ++ out') = prompts_of out ++ prompts_of out'.
Proof. apply omap_app. Qed.

Lemma stderr_of_app out out' :
  stderr_of (out ++ out') = stderr_of out ++ stderr_of out'.
Proof. apply omap_app. Qed.

Lemma while_true_leaves before bye after contacts :
  Forall (λ line, ¬ leaves line) before → leaves bye →
  while_true (before ++ bye :: after) contacts
  = while_true (before ++ [bye]) contacts
  ∧ ∃ out,
      while_true (before ++ [bye]) contacts
      = (out ++ [Stdout (u "Good bye!")], Return ())
      ∧ length (prompts_of out) = S (length before)
      ∧ stderr_of out = [].
Proof.
  intros Hbefore Hbye. revert contacts.
  induction Hbefore as [|line before Hline _ IH]; intros contacts.
  - cbn [app]. rewrite !while_true_cons, command_leaves by done.
    split; [done|]. by exists [Prompt (u "Enter a command: ")].
  - cbn [app]. rewrite !while_true_cons.
    destruct (command_stays line contacts Hline)
      as (out0 & contacts' & -> & Hprompts & Hstderr).
    cbn [fst snd]. destruct (IH contacts') as (-> & out & -> & Hlen & Herr).
    split; [done|]. cbn [fst snd].
    exists (Prompt (u "Enter a command: ") :: out0 ++ out).
    split; [by rewrite <- app_comm_cons, <- app_assoc|].
    change (Prompt (u "Enter a command: ") :: out0 ++ out)
      with ([Prompt (u "Enter a command: ")] ++ out0 ++ out).
    rewrite !prompts_of_app, !stderr_of_app, Hprompts, Hstderr, Herr.
    split; [|done]. cbn [prompts_of omap list_omap app length]. by rewrite Hlen.
Qed.

Lemma while_true_end_of_input stdin contacts :
  Forall (λ line, ¬ leaves line) stdin →
  ∃ out,
    while_true stdin contacts
    = (out ++ [Prompt (u "Enter a command: ")],
       Raise (Exc EOFError (u "EOF when reading a line")))
    ∧ length (prompts_of out) = length stdin
    ∧ stderr_of out = [].
Proof.
  intros Hstdin. revert contacts.
  induction Hstdin as [|line stdin Hline _ IH]; intros contacts.
  - by exists [].
  - rewrite while_true_cons.
    destruct (command_stays line contacts Hline)
      as (out0 & contacts' & -> & Hprompts & Hstderr).
    cbn [fst snd]. destruct (IH contacts') as (out & -> & Hlen & Herr).
    cbn [fst snd].
    exists (Prompt (u "Enter a command: ") :: out0 ++ out).
    split; [by rewrite <- app_comm_cons, <- app_assoc|].
    change (Prompt (u "Enter a command: ") :: out0 ++ out)
      with ([Prompt (u "Enter a command: ")] ++ out0 ++ out).
    rewrite !prompts_of_app, !stderr_of_app, Hprompts, Hstderr, Herr.
    split; [|done]. cbn [prompts_of omap list_omap app length]. by rewrite Hlen.
Qed.

Lemma main_while_true stdin :
  main stdin
  = (Stdout (u "Welcome to the assistant bot!") :: (while_true stdin []).1,
     (while_true stdin []).2).
Proof. unfold main. by rewrite (io_bind_returns (print _) ()). Qed.

(** X26. A session with a line whose command word is [close] or [exit]
    ends there without an error: [main] greets, asks for one line after
    the other up to that line, says [Good bye!] and returns; it writes
    nothing to [stderr], and the lines after that one are not read. *)
Theorem main_says_good_bye (before : list str) (bye : str) (after : list str) :
  Forall (λ line, ¬ leaves line) before →
  leaves bye →
  main (before ++ bye :: after) = main (before ++ [bye])
  ∧ ∃ out,
      main (before ++ [bye])
      = (Stdout (u "Welcome to the assistant bot!") :: out
           ++ [Stdout (u "Good bye!")],
         Return ())
      ∧ length (prompts_of out) = S (length before)
      ∧ stderr_of out = [].
Proof.
  intros Hbefore Hbye. rewrite !main_while_true.
  destruct (while_true_leaves before bye after [] Hbefore Hbye)
    as (-> & out & -> & Hlen & Herr).
  split; [done|]. by exists out.
Qed.

(** X27. A session without such a line does not end by itself: after the
    last line [main] asks for one more, and the [EOFError] of [input]
    leaves [main], which does not catch it. *)
Theorem main_end_of_input (stdin : list str) :
  Forall (λ line, ¬ leaves line) stdin →
  ∃ out,
    main stdin
    = (Stdout (u "Welcome to the assistant bot!") :: out
         ++ [Prompt (u "Enter a command: ")],
       Raise (Exc EOFError (u "EOF when reading a line")))
    ∧ length (prompts_of out) = length stdin
    ∧ stderr_of out = [].
Proof.
  intros Hstdin. rewrite main_while_true.
  destruct (while_true_end_of_input stdin [] Hstdin) as (out & -> & Hlen & Herr).
  by exists out.
Qed.

End Session.
End Contacts_more.

(** ** More examples

    The properties above that have a premise, on the sample data and with
    [ascii_unicode] for the Unicode tables. *)

Module More_examples.
Import Py Py_facts Py_more Trace Task_three Log_facts Log_more.

(** X1 on the first line of the sample log file. *)
Lemma parse_log_line_returns_well_formed_witness :
  well_formed sample_record
  ∧ date sample_record `prefix_of` strip sample_line
  ∧ message sample_record `suffix_of` strip sample_line.
Proof.
  apply (parse_log_line_returns_well_formed (H := ascii_unicode)
           sample_line sample_record).
  vm_compute. reflexivity.
Defined.

(** X3 on that line, indented and with a Windows line end. *)
Lemma parse_log_line_ignores_padding_witness :
  parsed (H := ascii_unicode) (u "  " ++ sample_line ++ [0x0D; 0x0A])
  = parsed (H := ascii_unicode) sample_line.
Proof.
  apply (parse_log_line_ignores_padding (H := ascii_unicode)
           (u "  ") sample_line [0x0D; 0x0A]).
  - by_decision.
  - by_decision.
Defined.

(** X4 on the sample log file: five lines, one of them blank. *)
Lemma load_logs_accounts_for_lines_witness :
  ∃ out logs,
    load_logs (H := ascii_unicode) sample_fs (u "app.log") = (out, Return logs)
    ∧ (length logs + length out + length (filter blank sample_lines))%nat
      = length sample_lines
    ∧ stdout_of out = []
    ∧ length (stderr_of out) = length out.
Proof.
  apply (load_logs_accounts_for_lines (H := ascii_unicode)
           sample_fs (u "app.log") sample_lines).
  vm_compute. reflexivity.
Defined.

(** X5 on the sample log file. *)
Lemma load_logs_then_count_witness :
  Forall well_formed (records_of (H := ascii_unicode) sample_lines)
  ∧ ∃ counts,
      count_logs_by_level (records_of (H := ascii_unicode) sample_lines)
      = Return counts
      ∧ (get0 counts (u "INFO") + get0 counts (u "ERROR")
         + get0 counts (u "DEBUG") + get0 counts (u "WARNING"))%Z
        = Z.of_nat (length (records_of (H := ascii_unicode) sample_lines)).
Proof.
  apply (load_logs_then_count (H := ascii_unicode) sample_fs (u "app.log")
           (warnings_of (H := ascii_unicode) sample_lines)).
  vm_compute. reflexivity.
Defined.

(** X6 on one record of level [INFO], asked for as [info]. *)
Lemma filter_length_is_count_witness :
  (<[u "INFO" := 1%Z]> (<[u "ERROR" := 0%Z]> (<[u "DEBUG" := 0%Z]>
      (<[u "WARNING" := 0%Z]> (∅ : gmap str Z)))))
    !! upper (Unicode := ascii_unicode) (u "info")
  = Some (Z.of_nat (length [sample_record])).
Proof.
  apply (filter_length_is_count (H := ascii_unicode) [sample_record] (u "info")).
  - vm_compute. reflexivity.
  - vm_compute. reflexivity.
Defined.

(** X7 on the records of the sample log file. *)
Lemma filter_logs_by_level_partition_witness :
  ∃ infos errors debugs warnings,
    filter_logs_by_level (H := ascii_unicode)
      (records_of (H := ascii_unicode) sample_lines) (u "INFO") = Return infos
    ∧ filter_logs_by_level (H := ascii_unicode)
        (records_of (H := ascii_unicode) sample_lines) (u "ERROR") = Return errors
    ∧ filter_logs_by_level (H := ascii_unicode)
        (records_of (H := ascii_unicode) sample_lines) (u "DEBUG") = Return debugs
    ∧ filter_logs_by_level (H := ascii_unicode)
        (records_of (H := ascii_unicode) sample_lines) (u "WARNING")
      = Return warnings
    ∧ (length infos + length errors + length debugs + length warnings)%nat
      = length (records_of (H := ascii_unicode) sample_lines)
    ∧ ∀ rec, rec ∈ records_of (H := ascii_unicode) sample_lines →
        (rec ∈ infos ↔ level rec = u "INFO")
        ∧ (rec ∈ errors ↔ level rec = u "ERROR")
        ∧ (rec ∈ debugs ↔ level rec = u "DEBUG")
        ∧ (rec ∈ warnings ↔ level rec = u "WARNING").
Proof.
  apply (filter_logs_by_level_partition (H := ascii_unicode)
           (records_of (H := ascii_unicode) sample_lines)).
  by_decision.
Defined.

(** X8 on the records of the sample log file, filtered by [error] and
    then by [Error] and by [info]. *)
Lemma filter_logs_by_level_twice_witness :
  filter_logs_by_level (H := ascii_unicode)
    (filter (λ rec, level rec = u "ERROR")
       (records_of (H := ascii_unicode) sample_lines)) (u "Error")
  = Return (filter (λ rec, level rec = u "ERROR")
              (records_of (H := ascii_unicode) sample_lines))
  ∧ filter_logs_by_level (H := ascii_unicode)
      (filter (λ rec, level rec = u "ERROR")
         (records_of (H := ascii_unicode) sample_lines)) (u "info")
    = Return [].
Proof.
  destruct (filter_logs_by_level_twice (H := ascii_unicode)
              (records_of (H := ascii_unicode) sample_lines) (u "error")
              (filter (λ rec, level rec = u "ERROR")
                 (records_of (H := ascii_unicode) sample_lines)))
    as [Hsame Hother].
  - vm_compute. reflexivity.
  - split.
    + vm_compute. reflexivity.
    + apply Hother; [unfold supported|]; by_decision.
Defined.

(** X10: a dictionary with a key that is no level gives the table of the
    empty dictionary. *)
Lemma display_log_counts_reads_levels_witness :
  display_log_counts (<[u "TRACE" := 5%Z]> (∅ : gmap str Z))
  = display_log_counts (∅ : gmap str Z).
Proof.
  apply display_log_counts_reads_levels.
  apply Forall_forall. by_decision.
Defined.

(** X13 on the sample file that may not be read. *)
Lemma main_load_failure_prints_no_table_witness :
  ∃ out raised,
    Task_three.main (H := ascii_unicode) sample_fs [u "main.py"; u "secret.log"]
    = (out ++ [Stderr (u "Error: " ++ exc_arg raised)], Return 1%Z)
    ∧ stdout_of out = []
    ∧ (load_logs (H := ascii_unicode) sample_fs (u "secret.log")).2
      = Raise raised.
Proof.
  apply (main_load_failure_prints_no_table (H := ascii_unicode) sample_fs
           (u "main.py") (u "secret.log") []
           (Exc PermissionError (u "[Errno 13] Permission denied: 'secret.log'"))).
  - left. vm_compute. reflexivity.
  - vm_compute. reflexivity.
Defined.

(** X14 on the sample log file and the level [critical]. *)
Lemma main_unsupported_level_after_table_witness :
  ∃ counts,
    count_logs_by_level (records_of (H := ascii_unicode) sample_lines)
    = Return counts
    ∧ Task_three.main (H := ascii_unicode) sample_fs
        [u "main.py"; u "app.log"; u "critical"]
      = (warnings_of (H := ascii_unicode) sample_lines
           ++ (display_log_counts counts).1
           ++ [Stderr (u "Error: "
                         ++ exc_arg (unsupported_level_error (H := ascii_unicode)
                                       (u "critical")))],
         Return 1%Z).
Proof.
  apply (main_unsupported_level_after_table (H := ascii_unicode) sample_fs
           (u "main.py") (u "app.log") (u "critical") [] sample_lines).
  - vm_compute. reflexivity.
  - unfold supported. by_decision.
Defined.

(** X15 on the sample log file and the level [error]. *)
Lemma main_prints_report_witness :
  ∃ counts,
    count_logs_by_level (records_of (H := ascii_unicode) sample_lines)
    = Return counts
    ∧ Task_three.main (H := ascii_unicode) sample_fs
        [u "main.py"; u "app.log"; u "error"]
      = (warnings_of (H := ascii_unicode) sample_lines
           ++ (display_log_counts counts).1
           ++ (display_log_details (H := ascii_unicode)
                 (filter (λ rec, level rec
                                 = upper (Unicode := ascii_unicode) (u "error"))
                    (records_of (H := ascii_unicode) sample_lines))
                 (u "error")).1,
         Return 0%Z).
Proof.
  apply (main_prints_report (H := ascii_unicode) sample_fs
           (u "main.py") (u "app.log") [u "error"] sample_lines).
  - vm_compute. reflexivity.
  - intros lvl [= <-]. unfold supported. by_decision.
Defined.

End More_examples.

Module More_contacts_examples.
Import Py Py_facts Py_more Trace Task_four Contacts_facts Contacts_more.

(** X18 on the sample contact book. *)
Lemma change_contact_updates_witness :
  ∃ contacts',
    change_contact (H := ascii_unicode) ([u "Alice"; u "456"], sample_book)
    = (contacts', Return (u "Contact updated."))
    ∧ show_phone (H := ascii_unicode) ([u "Alice"], contacts')
      = (contacts', Return (u "456"))
    ∧ (∀ other, other ≠ u "Alice" →
         (show_phone (H := ascii_unicode) ([other], contacts')).2
         = (show_phone (H := ascii_unicode) ([other], sample_book)).2)
    ∧ names contacts' = names sample_book.
Proof.
  apply (change_contact_updates (H := ascii_unicode)
           (u "Alice") (u "456") sample_book).
  vm_compute. reflexivity.
Defined.

(** X20 on the sample contact book and a new contact. *)
Lemma add_contact_then_show_all_witness :
  ∃ contacts',
    add_contact (H := ascii_unicode) ([u "Bob"; u "5"], sample_book)
    = (contacts', Return (u "Contact added."))
    ∧ show_all (H := ascii_unicode) contacts'
      = (contacts',
         Return (u "Alice: 123" ++ [0x0A] ++ u "Bob" ++ u ": " ++ u "5")).
Proof.
  apply (add_contact_then_show_all (H := ascii_unicode)
           (u "Bob") (u "5") sample_book (u "Alice: 123")).
  - vm_compute. reflexivity.
  - discriminate.
  - vm_compute. reflexivity.
Defined.

(** X22 on the line [ADD Alice 123]. *)
Lemma parse_input_of_words_witness :
  parse_input (H := ascii_unicode) (join [0x20] [u "ADD"; u "Alice"; u "123"])
  = (lower (Unicode := ascii_unicode) (u "ADD"), [u "Alice"; u "123"]).
Proof.
  apply (parse_input_of_words (H := ascii_unicode) (u "ADD") [u "Alice"; u "123"]).
  by_decision.
Defined.

(** X24 on the line [add Bob 5] and the sample contact book. *)
Lemma command_book_witness :
  (word (H := ascii_unicode) (u "add Bob 5") ∉ [u "add"; u "change"] →
     sample_book ++ [(u "Bob", u "5")] = sample_book)
  ∧ names sample_book `prefix_of` names (sample_book ++ [(u "Bob", u "5")])
  ∧ (length (sample_book ++ [(u "Bob", u "5")]) ≤ S (length sample_book))%nat
  ∧ (NoDup (names sample_book) →
       NoDup (names (sample_book ++ [(u "Bob", u "5")]))).
Proof.
  apply (command_book (H := ascii_unicode) (u "add Bob 5") sample_book
           (sample_book ++ [(u "Bob", u "5")]) [Stdout (u "Contact added.")]).
  vm_compute. reflexivity.
Defined.

(** X25 on two lines with the command word [hello]. *)
Lemma command_ignores_arguments_witness :
  command (H := ascii_unicode) (u "hello") sample_book
  = command (H := ascii_unicode) (u "Hello there") sample_book.
Proof.
  apply (command_ignores_arguments (H := ascii_unicode)
           (u "hello") (u "Hello there") sample_book).
  - vm_compute. reflexivity.
  - by_decision.
Defined.

(** X26 on a session of three lines, the second of which is [exit]. *)
Lemma main_says_good_bye_witness :
  Task_four.main (H := ascii_unicode) ([u "hello"] ++ u "exit" :: [u "all"])
  = Task_four.main (H := ascii_unicode) ([u "hello"] ++ [u "exit"])
  ∧ ∃ out,
      Task_four.main (H := ascii_unicode) ([u "hello"] ++ [u "exit"])
      = (Stdout (u "Welcome to the assistant bot!") :: out
           ++ [Stdout (u "Good bye!")],
         Return ())
      ∧ length (prompts_of out) = S (length [u "hello"])
      ∧ stderr_of out = [].
Proof.
  apply (main_says_good_bye (H := ascii_unicode) [u "hello"] (u "exit") [u "all"]).
  - by_decision.
  - by_decision.
Defined.

(** X27 on a session of two lines, none of which leaves. *)
Lemma main_end_of_input_witness :
  ∃ out,
    Task_four.main (H := ascii_unicode) [u "hello"; u "all"]
    = (Stdout (u "Welcome to the assistant bot!") :: out
         ++ [Prompt (u "Enter a command: ")],
       Raise (Exc EOFError (u "EOF when reading a line")))
    ∧ length (prompts_of out) = length [u "hello"; u "all"]
    ∧ stderr_of out = [].
Proof.
  apply (main_end_of_input (H := ascii_unicode) [u "hello"; u "all"]).
  by_decision.
Defined.

End More_contacts_examples.
